(** * Segmentation metrics of skimage.measure.segmentation_metrics

    A shallow embedding of [src/skimage/measure/segmentation_metrics.py]
    and the properties its specification states about it.

    Numeric conventions of the embedding.
    - Label fields hold non-negative integers: [nat].
    - The contingency table is built from [np.ones], so its cells are
      float64 numbers that hold integer counts; they are modelled by [Z]
      (exact while the counts stay below 2^53).
    - The scalars of the Rand family are quotients of such counts; they are
      modelled by [npfloat]: an exact rational, or [NonFinite] for the
      [nan]/[inf] numpy produces on a zero denominator.
    - The variation of information needs [log2]; it is modelled over the
      real numbers, with [NaN] for the result of [0/0]. *)

From Stdlib Require Import List Bool Arith ZArith QArith Lia Lra Reals.
From Stdlib Require Import Permutation.
From Stdlib Require Lqa.
Import ListNotations.

Local Open Scope nat_scope.

(** ** Exceptions and the error monad *)

Inductive exn : Type :=
| ShapeMismatch      (* raised by [_assert_compatible] *)
| ValueError
| IndexError
| AxisError
| ZeroDivisionError.

Inductive result (A : Type) : Type :=
| Ok (a : A)
| Raise (e : exn).

Arguments Ok {A} a.
Arguments Raise {A} e.

Definition bind {A B : Type} (r : result A) (k : A -> result B) : result B :=
  match r with
  | Ok a => k a
  | Raise e => Raise e
  end.

Notation "x <- r ;; k" := (bind r (fun x => k))
  (at level 61, r at next level, right associativity).

Fixpoint mapM {A B : Type} (f : A -> result B) (l : list A) : result (list B) :=
  match l with
  | [] => Ok []
  | x :: t => y <- f x ;; ys <- mapM f t ;; Ok (y :: ys)
  end.

(** ** numpy arrays

    Arrays of one or two dimensions; a two-dimensional array is the list of
    its rows. *)

Inductive ndarray (A : Type) : Type :=
| Arr1 (v : list A)
| Arr2 (m : list (list A)).

Arguments Arr1 {A} v.
Arguments Arr2 {A} m.

Module Np.

Definition ncols_of {A : Type} (m : list (list A)) : nat :=
  match m with
  | [] => 0
  | r :: _ => length r
  end.

Definition shape {A : Type} (a : ndarray A) : list nat :=
  match a with
  | Arr1 v => [length v]
  | Arr2 m => [length m; ncols_of m]
  end.

(** Rows of a two-dimensional array all have the same length. *)
Definition wf {A : Type} (a : ndarray A) : bool :=
  match a with
  | Arr1 _ => true
  | Arr2 m => forallb (fun r => length r =? ncols_of m) m
  end.

Definition ravel {A : Type} (a : ndarray A) : list A :=
  match a with
  | Arr1 v => v
  | Arr2 m => concat m
  end.

Definition size {A : Type} (a : ndarray A) : nat := length (ravel a).

Definition amap {A B : Type} (f : A -> B) (a : ndarray A) : ndarray B :=
  match a with
  | Arr1 v => Arr1 (map f v)
  | Arr2 m => Arr2 (map (map f) m)
  end.

(** [a[i]] for a one-dimensional [a]; out of range raises. *)
Definition getitem (a : list nat) (i : nat) : result nat :=
  match nth_error a i with
  | Some x => Ok x
  | None => Raise IndexError
  end.

(** [a[idx]] where [idx] is an integer array: the result has the shape of
    [idx]. *)
Definition take (a : list nat) (idx : ndarray nat) : result (ndarray nat) :=
  match idx with
  | Arr1 v => r <- mapM (getitem a) v ;; Ok (Arr1 r)
  | Arr2 m => r <- mapM (mapM (getitem a)) m ;; Ok (Arr2 r)
  end.

(** [a[mask] = x] for a boolean [mask]: the mask must have the length of
    [a]. *)
Definition mask_set {A : Type} (a : list A) (mask : list bool) (x : A)
  : result (list A) :=
  if length a =? length mask
  then Ok (map (fun p : A * bool => if snd p then x else fst p)
               (combine a mask))
  else Raise IndexError.

(** [np.unique]: the sorted distinct values. *)
Fixpoint insert_unique (x : nat) (l : list nat) : list nat :=
  match l with
  | [] => [x]
  | y :: t =>
      if x <? y then x :: l
      else if x =? y then l
      else y :: insert_unique x t
  end.

Definition unique (l : list nat) : list nat := fold_right insert_unique [] l.

(** [a.max()]; numpy raises [ValueError] on an empty array. *)
Definition amax (l : list nat) : result nat :=
  match l with
  | [] => Raise ValueError
  | _ => Ok (list_max l)
  end.

(** [a[idx] = vals] on a one-dimensional [a], positions and values given
    in parallel. *)
Fixpoint set_nth {A : Type} (a : list A) (i : nat) (x : A) : list A :=
  match a, i with
  | [], _ => []
  | _ :: t, 0 => x :: t
  | y :: t, S j => y :: set_nth t j x
  end.

Fixpoint scatter {A : Type} (a : list A) (idx : list nat) (vals : list A)
  : list A :=
  match idx, vals with
  | i :: idx', x :: vals' => scatter (set_nth a i x) idx' vals'
  | _, _ => a
  end.

(** Sums of integer-valued float arrays. *)
Definition zsum (l : list Z) : Z := fold_right Z.add 0%Z l.

(** [np.matrix] values (always two-dimensional), as the list of rows. *)
Definition matrix := list (list Z).

Definition msub (m : matrix) (k : Z) : matrix :=
  map (map (fun x => (x - k)%Z)) m.

(** [m[1:]] slices the rows of a matrix. *)
Definition mrows_from1 (m : matrix) : matrix := tl m.

Definition msum (m : matrix) : Z := zsum (concat m).

(** [m.A.ravel()] *)
Definition mravel (m : matrix) : list Z := concat m.

Definition dot (u v : list Z) : Z :=
  zsum (map (fun p => (fst p * snd p)%Z) (combine u v)).

End Np.

(** ** scipy.sparse matrices *)

Module Sparse.

(** Coordinate format: parallel arrays, duplicates allowed. *)
Record coo : Type := mk_coo {
  coo_shape : nat * nat;
  coo_data : list Z;
  coo_row : list nat;
  coo_col : list nat
}.

(** [sparse.coo_matrix((data, (row, col)))]: the shape is inferred from the
    largest indices, which needs at least one entry. *)
Definition coo_matrix (data : list Z) (row col : list nat) : result coo :=
  if negb ((length data =? length row) && (length row =? length col))
  then Raise ValueError
  else match row with
       | [] => Raise ValueError
       | _ => Ok (mk_coo (S (list_max row), S (list_max col)) data row col)
       end.

(** Compressed sparse row format.  Row [i] of [csr_rows] holds the stored
    entries of matrix row [i] as (column, value) pairs, that is
    [indices[indptr[i]:indptr[i+1]]] zipped with the same slice of [data].
    A stored value may be zero. *)
Record csr : Type := mk_csr {
  csr_ncols : nat;
  csr_rows : list (list (nat * Z))
}.

Definition csr_nrows (m : csr) : nat := length (csr_rows m).

(** The [data] array, in storage order. *)
Definition csr_data (m : csr) : list Z :=
  flat_map (map snd) (csr_rows m).

(** An elementwise in-place update of [m.data]. *)
Definition csr_map_data (f : Z -> Z) (m : csr) : csr :=
  mk_csr (csr_ncols m)
         (map (map (fun e => (fst e, f (snd e)))) (csr_rows m)).

(** Entries of a coordinate matrix as (row, col, value) triples. *)
Definition coo_entries (c : coo) : list (nat * nat * Z) :=
  combine (combine (coo_row c) (coo_col c)) (coo_data c).

Definition at_coord (i j : nat) (e : nat * nat * Z) : bool :=
  (fst (fst e) =? i) && (snd (fst e) =? j).

(** The sum of the values given for coordinate [(i, j)]. *)
Definition coo_cell (es : list (nat * nat * Z)) (i j : nat) : Z :=
  Np.zsum (map snd (filter (at_coord i j) es)).

Definition coo_stored (es : list (nat * nat * Z)) (i j : nat) : bool :=
  existsb (at_coord i j) es.

(** [tocsr()]: one stored entry per coordinate that occurs, in row-major
    order, duplicates summed. *)
Definition tocsr (c : coo) : csr :=
  let es := coo_entries c in
  mk_csr (snd (coo_shape c))
    (map (fun i =>
            map (fun j => (j, coo_cell es i j))
                (filter (coo_stored es i) (seq 0 (snd (coo_shape c)))))
         (seq 0 (fst (coo_shape c)))).

(** [m[i, j]] *)
Definition csr_get (m : csr) (i j : nat) : Z :=
  Np.zsum (map snd (filter (fun e => fst e =? j) (nth i (csr_rows m) []))).

(** [m.sum()] *)
Definition csr_sum (m : csr) : Z := Np.zsum (csr_data m).

(** [m.sum(axis=1)]: an (nrows x 1) matrix of row sums. *)
Definition sum_axis1 (m : csr) : Np.matrix :=
  map (fun r => [Np.zsum (map snd r)]) (csr_rows m).

(** [m.sum(axis=0)]: a (1 x ncols) matrix of column sums. *)
Definition sum_axis0 (m : csr) : Np.matrix :=
  [map (fun j =>
          Np.zsum (map (fun r =>
                          Np.zsum (map snd (filter (fun e => fst e =? j) r)))
                       (csr_rows m)))
       (seq 0 (csr_ncols m))].

(** [a.multiply(b)], elementwise, on the stored entries of [a]. *)
Definition multiply (a b : csr) : csr :=
  mk_csr (csr_ncols a)
    (map (fun ir =>
            map (fun e => (fst e, (snd e * csr_get b (fst ir) (fst e))%Z))
                (snd ir))
         (combine (seq 0 (csr_nrows a)) (csr_rows a))).

End Sparse.

Import Np Sparse.

(** ** The input contract *)

(** Modelled from the spec: [_assert_compatible] is imported from
    [simple_metrics], which is not among the sources.  The spec says that
    the two label fields must have identical shape and that a shape mismatch
    is a hard input error raised before any computation. *)
Definition _assert_compatible {A B : Type} (im1 : ndarray A) (im2 : ndarray B)
  : result unit :=
  if list_eq_dec Nat.eq_dec (shape im1) (shape im2)
  then Ok tt
  else Raise ShapeMismatch.

(** ** contingency_table *)

Definition contingency_table (im_true im_test : ndarray nat) : result csr :=
  let im_test_r := ravel im_test in
  let im_true_r := ravel im_true in
  let ignored := repeat false (length im_test_r) in
  let data := repeat 1%Z (length im_true_r) in
  ignored <- mask_set ignored (map (fun x => x =? 0) im_test_r) true ;;
  ignored <- mask_set ignored (map (fun x => x =? 0) im_true_r) true ;;
  data <- mask_set data ignored 0%Z ;;
  c <- coo_matrix data im_test_r im_true_r ;;
  Ok (tocsr c).

(** ** relabel_from_one *)

Definition relabel_from_one (label_field : ndarray nat)
  : result (ndarray nat * list nat * list nat) :=
  let labels := unique (ravel label_field) in
  let labels0 := filter (fun x => negb (x =? 0)) labels in
  m <- amax labels ;;
  if m =? length labels0
  then Ok (label_field, labels, labels)
  else
    let forward_map := repeat 0 (m + 1) in
    let forward_map := scatter forward_map labels0 (seq 1 (length labels0)) in
    let labels :=
      if negb (existsb (fun x => x =? 0) labels) then 0 :: labels else labels in
    let inverse_map := labels in
    relabeled <- take forward_map label_field ;;
    Ok (relabeled, forward_map, inverse_map).

(** ** compare_raw_edit_distance *)

Definition zero_small (size_threshold : Q) (x : Z) : Z :=
  if Qle_bool (inject_Z x) size_threshold then 0%Z else x.

Definition self_divide (x : Z) : Z :=
  if (x =? 0)%Z then x else (x / x)%Z.

Definition compare_raw_edit_distance
  (im_true im_test : ndarray nat) (size_threshold : Q) : result (Z * Z) :=
  _ <- _assert_compatible im_true im_test ;;
  t <- relabel_from_one im_test ;;
  let im_test := fst (fst t) in
  t <- relabel_from_one im_true ;;
  let im_true := fst (fst t) in
  r <- contingency_table im_true im_test ;;
  let r := csr_map_data (zero_small size_threshold) r in
  let r := csr_map_data self_divide r in
  let false_splits := msum (mrows_from1 (msub (sum_axis0 r) 1)) in
  let false_merges := msum (mrows_from1 (msub (sum_axis1 r) 1)) in
  Ok (false_merges, false_splits).

(** ** Float scalars of the Rand family

    Every scalar below is obtained from integer counts by [+], [-], [*] and
    [/].  numpy does not raise on a zero denominator: the quotient is [nan]
    or [inf], which is [NonFinite] here.  In the formulas of this module a
    non-finite operand always gives a non-finite result (no finite number is
    ever divided by an infinite one), so one constructor is enough. *)

Inductive npfloat : Type :=
| Finite (q : Q)
| NonFinite.

Definition flift2 (op : Q -> Q -> Q) (x y : npfloat) : npfloat :=
  match x, y with
  | Finite a, Finite b => Finite (op a b)
  | _, _ => NonFinite
  end.

Definition fadd := flift2 Qplus.
Definition fsub := flift2 Qminus.
Definition fmul := flift2 Qmult.

Definition fdiv (x y : npfloat) : npfloat :=
  match x, y with
  | Finite a, Finite b => if Qeq_bool b 0 then NonFinite else Finite (a / b)%Q
  | _, _ => NonFinite
  end.

Definition fofZ (z : Z) : npfloat := Finite (inject_Z z).

(** [x == y] on floats: [nan] equals nothing. *)
Definition feq (x y : npfloat) : Prop :=
  match x, y with
  | Finite a, Finite b => (a == b)%Q
  | _, _ => False
  end.

(** ** compare_adapted_rand_error *)

Definition compare_adapted_rand_error (im_true im_test : ndarray nat)
  : result (npfloat * npfloat * npfloat) :=
  _ <- _assert_compatible im_true im_test ;;
  let segA := im_test in
  let segB := im_true in
  let n := Z.of_nat (size segA) in
  p_ij <- contingency_table segB segA ;;
  let sum_p_ij := dot (csr_data p_ij) (csr_data p_ij) in
  let a_i := mravel (sum_axis0 p_ij) in
  let b_i := mravel (sum_axis1 p_ij) in
  let sum_a := dot a_i a_i in
  let sum_b := dot b_i b_i in
  let precision := fdiv (fofZ (sum_p_ij - n)) (fofZ (sum_a - n)) in
  let recall := fdiv (fofZ (sum_p_ij - n)) (fofZ (sum_b - n)) in
  let fscore :=
    fdiv (fmul (fmul (Finite 2) precision) recall) (fadd precision recall) in
  let are := fsub (Finite 1) fscore in
  Ok (are, precision, recall).

(** ** rand_values, rand_index, adj_rand_index *)

Definition sq (x : Z) : Z := (x * x)%Z.

Definition rand_values (cont_table : csr) : Q * Q * Q * Q :=
  let n := csr_sum cont_table in
  let sum1 := csr_sum (multiply cont_table cont_table) in
  let sum2 := zsum (map sq (mravel (sum_axis1 cont_table))) in
  let sum3 := zsum (map sq (mravel (sum_axis0 cont_table))) in
  let a := (inject_Z (sum1 - n) / 2)%Q in
  let b := (inject_Z (sum2 - sum1) / 2)%Q in
  let c := (inject_Z (sum3 - sum1) / 2)%Q in
  let d := (inject_Z (sum1 + n * n - sum2 - sum3) / 2)%Q in
  (a, b, c, d).

Definition rand_index (im1 im2 : ndarray nat) : result npfloat :=
  cont <- contingency_table im1 im2 ;;
  let '(a, b, c, d) := rand_values cont in
  Ok (fdiv (Finite (a + d)%Q) (Finite (a + b + c + d)%Q)).

Definition adj_rand_index (im1 im2 : ndarray nat) : result npfloat :=
  cont <- contingency_table im1 im2 ;;
  let '(a, b, c, d) := rand_values cont in
  let nk := (a + b + c + d)%Q in
  Ok (fdiv
        (Finite (nk * (a + d) - ((a + b) * (a + c) + (c + d) * (b + d)))%Q)
        (Finite (nk * nk - ((a + b) * (a + c) + (c + d) * (b + d)))%Q)).

(** ** compare_rand_by_threshold *)

Section ThresholdSweep.

(** [scipy.ndimage.label], the connected-component collaborator: only its
    interface is known here. *)
Variable label : ndarray bool -> ndarray nat * nat.

(** Indexing [ts] with the float-valued [np.arange(1, len(ts), step)]:
    recent numpy versions refuse an index array of float dtype, older ones
    truncate it.  The outcome is left open. *)
Variable float_index : list nat -> Z -> result (list nat).

(** [ts[np.arange(1, len(ts), len(ts) / npoints)]].  [/] is the true
    division of Python 3 (the module uses the [@] operator): it raises
    when [npoints] is zero. *)
Definition subsample (ts : list nat) (npoints : Z) : result (list nat) :=
  if (npoints =? 0)%Z then Raise ZeroDivisionError
  else float_index ts npoints.

Definition compare_rand_by_threshold
  (im_true im_test : ndarray nat) (npoints : option Z)
  : result (list (list npfloat)) :=
  _ <- _assert_compatible im_true im_test ;;
  let ts := tl (unique (ravel im_test)) in
  let npoints :=
    match npoints with
    | None => Z.of_nat (length ts)
    | Some k => k
    end in
  ts <- (if (2 * npoints <? Z.of_nat (length ts))%Z
         then subsample ts npoints
         else Ok ts) ;;
  result <- mapM (fun t =>
                    let seg := fst (label (amap (fun x => x <? t) im_test)) in
                    ri <- rand_index seg im_true ;;
                    ari <- adj_rand_index seg im_true ;;
                    Ok (ri, ari)) ts ;;
  Ok [map (fun t => fofZ (Z.of_nat t)) ts; map fst result; map snd result].

End ThresholdSweep.

(** ** Variation of information

    Floats of this part are real numbers, or [NaN].  Label fields hold
    non-negative integers, so a zero divisor only ever meets a zero dividend
    ([0/0], which is [nan]) and no infinity arises; [log2] is only applied to
    non-zero entries. *)

Inductive vfloat : Type :=
| Real (r : R)
| NaN.

Module VFloat.

Definition lift2 (op : R -> R -> R) (x y : vfloat) : vfloat :=
  match x, y with
  | Real a, Real b => Real (op a b)
  | _, _ => NaN
  end.

Definition vadd := lift2 Rplus.
Definition vmul := lift2 Rmult.

Definition vneg (x : vfloat) : vfloat :=
  match x with
  | Real a => Real (- a)%R
  | NaN => NaN
  end.

Definition vdiv (x y : vfloat) : vfloat :=
  match x, y with
  | Real a, Real b => if Req_dec_T b 0%R then NaN else Real (a / b)%R
  | _, _ => NaN
  end.

Definition vlog2 (x : vfloat) : vfloat :=
  match x with
  | Real a => if Rlt_dec 0%R a then Real (ln a / ln 2)%R else NaN
  | NaN => NaN
  end.

(** Truth value of a float in [nonzero()]: [nan] counts as non-zero. *)
Definition vnonzero (x : vfloat) : bool :=
  match x with
  | Real a => if Req_dec_T a 0%R then false else true
  | NaN => true
  end.

Definition vsum (l : list vfloat) : vfloat := fold_right vadd (Real 0%R) l.

(** [a.nonzero()[0]] on a one-dimensional array. *)
Definition nonzero (l : list vfloat) : list nat :=
  map fst (filter (fun p => vnonzero (snd p)) (combine (seq 0 (length l)) l)).

Definition vtake (l : list vfloat) (idx : list nat) : list vfloat :=
  map (fun i => nth i l NaN) idx.

(** [a.sum(axis=1)], raveled. *)
Definition asum_axis1 (a : ndarray vfloat) : result (list vfloat) :=
  match a with
  | Arr1 _ => Raise AxisError
  | Arr2 m => Ok (map vsum m)
  end.

Definition colsums (ncols : nat) (m : list (list vfloat)) : list vfloat :=
  map (fun j => vsum (map (fun r => nth j r (Real 0%R)) m)) (seq 0 ncols).

(** [a.sum(axis=0)], raveled. *)
Definition asum_axis0 (a : ndarray vfloat) : result (list vfloat) :=
  match a with
  | Arr1 v => Ok [vsum v]
  | Arr2 m => Ok (colsums (ncols_of m) m)
  end.

(** [a[rows, :][:, cols]] *)
Definition submatrix (a : ndarray vfloat) (rows cols : list nat)
  : result (list (list vfloat)) :=
  match a with
  | Arr1 _ => Raise IndexError
  | Arr2 m => Ok (map (fun i => vtake (nth i m []) cols) rows)
  end.

End VFloat.

Import VFloat.

(** [xlogx], [divide_rows] and [divide_columns] on a dense array (the branch
    taken for the [ndarray] that [vi_tables] passes). *)
Definition xlogx (x : list (list vfloat)) : list (list vfloat) :=
  map (map (fun z => if vnonzero z then vmul z (vlog2 z) else z)) x.

Definition divide_rows (matrix : list (list vfloat)) (column : list vfloat)
  : list (list vfloat) :=
  map (fun p => map (fun x => vdiv x (snd p)) (fst p)) (combine matrix column).

Definition divide_columns (matrix : list (list vfloat)) (row : list vfloat)
  : list (list vfloat) :=
  map (fun r => map (fun p => vdiv (fst p) (snd p)) (combine r row)) matrix.

Record vi_result : Type := mk_vi {
  vi_pxy : ndarray vfloat;
  vi_px : list vfloat;
  vi_py : list vfloat;
  vi_hxgy : list vfloat;
  vi_hygx : list vfloat;
  vi_lpygx : list vfloat;
  vi_lpxgy : list vfloat
}.

Definition vi_tables (im1 im2 : ndarray nat) : result vi_result :=
  let cont := im1 in
  let total := Real (INR (list_sum (ravel cont))) in
  let pxy := amap (fun x => vdiv (Real (INR x)) total) cont in
  px <- asum_axis1 pxy ;;
  py <- asum_axis0 pxy ;;
  let nzx := nonzero px in
  let nzy := nonzero py in
  let nzpx := vtake px nzx in
  let nzpy := vtake py nzy in
  nzpxy <- submatrix pxy nzx nzy ;;
  let lpygx := repeat (Real 0%R) (length px) in
  let lpygx := scatter lpygx nzx (map vsum (xlogx (divide_rows nzpxy nzpx))) in
  let hygx := map (fun p => vneg (vmul (fst p) (snd p))) (combine px lpygx) in
  let lpxgy := repeat (Real 0%R) (length py) in
  let lpxgy :=
    scatter lpxgy nzy
            (colsums (length nzy) (xlogx (divide_columns nzpxy nzpy))) in
  let hxgy := map (fun p => vneg (vmul (fst p) (snd p))) (combine py lpxgy) in
  Ok (mk_vi pxy px py hxgy hygx lpygx lpxgy).

Definition compare_split_vi (im1 im2 : ndarray nat)
  : result (vfloat * vfloat) :=
  t <- vi_tables im1 im2 ;;
  Ok (vsum (vi_hygx t), vsum (vi_hxgy t)).

(** [np.dot(weights, sv)] for two arrays of shape (2,). *)
Definition dot2 (w s : vfloat * vfloat) : vfloat :=
  vadd (vmul (fst w) (fst s)) (vmul (snd w) (snd s)).

Definition ones2 : vfloat * vfloat := (Real 1%R, Real 1%R).

Definition compare_vi (im1 im2 : ndarray nat) (weights : vfloat * vfloat)
  : result vfloat :=
  sv <- compare_split_vi im1 im2 ;;
  Ok (dot2 weights sv).

(** * Vocabulary of the properties *)

(** ** Cell counts *)

(** The pairs (test label, true label) of two raveled fields, position by
    position. *)
Definition label_pairs (im_true im_test : ndarray nat) : list (nat * nat) :=
  combine (ravel im_test) (ravel im_true).

(** What one position contributes to the table: nothing when either label
    is 0. *)
Definition weight (p : nat * nat) : Z :=
  if (fst p =? 0) || (snd p =? 0) then 0%Z else 1%Z.

(** The number of positions labelled [i] in the test field and [j] in the
    true field, positions with a zero label left out. *)
Definition joint_count (ps : list (nat * nat)) (i j : nat) : Z :=
  zsum (map (fun p => if (fst p =? i) && (snd p =? j) then weight p else 0%Z)
            ps).

(** The number of positions where both fields are non-zero. *)
Definition both_nonzero (im_true im_test : ndarray nat) : nat :=
  length (filter (fun p => negb (fst p =? 0) && negb (snd p =? 0))
                 (label_pairs im_true im_test)).

(** The sum of row [i] over [nc] columns, and of column [j] over [nr]
    rows. *)
Definition row_total (ps : list (nat * nat)) (nc : nat) (i : nat) : Z :=
  zsum (map (fun j => joint_count ps i j) (seq 0 nc)).

Definition col_total (ps : list (nat * nat)) (nr : nat) (j : nat) : Z :=
  zsum (map (fun i => joint_count ps i j) (seq 0 nr)).

(** The table has one row per test label and one column per true label,
    label 0 included. *)
Definition test_rows (im_test : ndarray nat) : nat :=
  S (list_max (ravel im_test)).

Definition true_cols (im_true : ndarray nat) : nat :=
  S (list_max (ravel im_true)).

(** Row [i] of the matrix converted from the entries [es], with [nc]
    columns. *)
Definition row_of (es : list (nat * nat * Z)) (nc : nat) (i : nat)
  : list (nat * Z) :=
  map (fun j => (j, coo_cell es i j))
      (filter (coo_stored es i) (seq 0 nc)).

(** The table [contingency_table] returns, written with [row_of]. *)
Definition table_of (im_true im_test : ndarray nat) : csr :=
  let ps := label_pairs im_true im_test in
  mk_csr (S (list_max (ravel im_true)))
         (map (row_of (combine ps (map weight ps))
                      (S (list_max (ravel im_true))))
              (seq 0 (S (list_max (ravel im_test))))).

(** ** Overlaps of segments *)

(** A cell survives the thresholding when its count is non-zero and larger
    than [size_threshold]: the two segments then overlap. *)
Definition overlaps (size_threshold : Q) (cnt : Z) : bool :=
  negb (Qle_bool (inject_Z cnt) size_threshold) && negb (cnt =? 0)%Z.

(** The number of true segments that test segment [i] overlaps with, and
    the number of test segments that true segment [j] overlaps with.
    Segments are the labels [1..K] of the relabelled fields. *)
Definition true_segments_overlapped
  (size_threshold : Q) (im_true im_test : ndarray nat) (i : nat) : Z :=
  Z.of_nat
    (length
       (filter (fun j => overlaps size_threshold
                           (joint_count (label_pairs im_true im_test) i j))
               (seq 1 (list_max (ravel im_true))))).

Definition test_segments_overlapped
  (size_threshold : Q) (im_true im_test : ndarray nat) (j : nat) : Z :=
  Z.of_nat
    (length
       (filter (fun i => overlaps size_threshold
                           (joint_count (label_pairs im_true im_test) i j))
               (seq 1 (list_max (ravel im_test))))).

(** The sum over test-segment rows of (true segments overlapped - 1), and
    the symmetric sum over true-segment columns. *)
Definition sum_over_test_rows
  (size_threshold : Q) (im_true im_test : ndarray nat) : Z :=
  zsum (map (fun i =>
               (true_segments_overlapped size_threshold im_true im_test i - 1)%Z)
            (seq 1 (list_max (ravel im_test)))).

Definition sum_over_true_columns
  (size_threshold : Q) (im_true im_test : ndarray nat) : Z :=
  zsum (map (fun j =>
               (test_segments_overlapped size_threshold im_true im_test j - 1)%Z)
            (seq 1 (list_max (ravel im_true)))).

(** The reading of the edit distance in which [false_splits] is the sum
    over test rows and [false_merges] the sum over true columns. *)
Definition splits_by_rows_merges_by_columns
  (im_true im_test : ndarray nat) (size_threshold : Q) : Prop :=
  forall te fw1 inv1 tr fw2 inv2 false_merges false_splits,
    relabel_from_one im_test = Ok (te, fw1, inv1) ->
    relabel_from_one im_true = Ok (tr, fw2, inv2) ->
    compare_raw_edit_distance im_true im_test size_threshold =
    Ok (false_merges, false_splits) ->
    false_splits = sum_over_test_rows size_threshold tr te /\
    false_merges = sum_over_true_columns size_threshold tr te.

(** ** Quantities of the adapted Rand error *)

(** The sum of the squared cells. *)
Definition sum_p_ij (im_true im_test : ndarray nat) : Z :=
  zsum (map (fun i =>
               zsum (map (fun j =>
                            sq (joint_count (label_pairs im_true im_test) i j))
                         (seq 0 (true_cols im_true))))
            (seq 0 (test_rows im_test))).

(** [a_i]: the sums over axis 0, one per column; [b_i]: the sums over
    axis 1, one per row. *)
Definition a_i (im_true im_test : ndarray nat) (j : nat) : Z :=
  col_total (label_pairs im_true im_test) (test_rows im_test) j.

Definition b_i (im_true im_test : ndarray nat) (i : nat) : Z :=
  row_total (label_pairs im_true im_test) (true_cols im_true) i.

Definition sum_a (im_true im_test : ndarray nat) : Z :=
  zsum (map (fun j => sq (a_i im_true im_test j)) (seq 0 (true_cols im_true))).

Definition sum_b (im_true im_test : ndarray nat) : Z :=
  zsum (map (fun i => sq (b_i im_true im_test i)) (seq 0 (test_rows im_test))).

(** ** Segment sizes of one field *)

(** The number of positions of [x] that carry the non-zero label [l]. *)
Definition label_count (x : ndarray nat) (l : nat) : Z :=
  if l =? 0 then 0%Z else Z.of_nat (count_occ Nat.eq_dec (ravel x) l).

(** The number of counted positions, and the sum of the squared segment
    sizes. *)
Definition counted (x : ndarray nat) : Z :=
  zsum (map (label_count x) (seq 0 (test_rows x))).

Definition squared_sizes (x : ndarray nat) : Z :=
  zsum (map (fun l => sq (label_count x l)) (seq 0 (test_rows x))).

(** ** Thresholds *)

(** Strictly increasing lists, the order of [np.unique]. *)
Fixpoint increasing (l : list nat) : Prop :=
  match l with
  | [] => True
  | x :: t => (forall y, In y t -> x < y) /\ increasing t
  end.

(** The thresholds as a row of the returned table. *)
Definition threshold_row (ts : list nat) : list npfloat :=
  map (fun t => fofZ (Z.of_nat t)) ts.

(** The reading of the sweep in which the thresholds of the returned table
    are the non-zero unique values of the test map. *)
Definition thresholds_are_nonzero_values
  (label : ndarray bool -> ndarray nat * nat)
  (float_index : list nat -> Z -> result (list nat))
  (im_true im_test : ndarray nat) (npoints : option Z) : Prop :=
  forall rows,
    compare_rand_by_threshold label float_index im_true im_test npoints
    = Ok rows ->
    hd [] rows =
    threshold_row (filter (fun v => negb (v =? 0)) (unique (ravel im_test))).

(** A collaborator that puts the whole foreground in one component, and a
    numpy that refuses float indices. *)
Definition one_component (mask : ndarray bool) : ndarray nat * nat :=
  (amap (fun b : bool => if b then 1 else 0) mask, 1).

Definition no_float_index (ts : list nat) (npoints : Z) : result (list nat) :=
  Raise IndexError.

(** ** Ranks of labels *)

(** The distinct non-zero labels of a field that are not larger than [v],
    and their number: the rank of [v] among the non-zero labels. *)
Definition nonzero_labels_upto (x : ndarray nat) (v : nat) : list nat :=
  nodup Nat.eq_dec (filter (fun u => negb (u =? 0) && (u <=? v)) (ravel x)).

Definition label_rank (x : ndarray nat) (v : nat) : nat :=
  length (nonzero_labels_upto x v).

(** The number of segments: the distinct non-zero labels of a field. *)
Definition n_segments (x : ndarray nat) : nat :=
  length (nodup Nat.eq_dec (filter (fun u => negb (u =? 0)) (ravel x))).

(** ** Positions and float results *)

(** The number of positions labelled [i] in the test field and [j] in the
    true field. *)
Definition positions_with (im_true im_test : ndarray nat) (i j : nat) : nat :=
  length (filter (fun p => (fst p =? i) && (snd p =? j))
                 (label_pairs im_true im_test)).

(** The number of non-zero positions of a field. *)
Definition nonzero_positions (x : ndarray nat) : nat :=
  length (filter (fun v => negb (v =? 0)) (ravel x)).

(** Two float results are the same: equal numbers, or both non-finite. *)
Definition fsame (x y : npfloat) : Prop :=
  match x, y with
  | Finite a, Finite b => (a == b)%Q
  | NonFinite, NonFinite => True
  | _, _ => False
  end.

(** ** Real-valued floats *)

(** A float that is a real number with the property [P]. *)
Definition real_in (P : R -> Prop) (v : vfloat) : Prop :=
  match v with
  | Real a => P a
  | NaN => False
  end.

Definition nonneg (a : R) : Prop := (0 <= a)%R.
Definition nonpos (a : R) : Prop := (a <= 0)%R.
Definition unit_range (a : R) : Prop := (0 <= a <= 1)%R.

(** ** Example fields *)

(** The end-to-end scenario of the specification. *)
Definition scenario_true : ndarray nat := Arr1 [1; 1; 2; 2; 3; 3].
Definition scenario_test : ndarray nat := Arr1 [1; 1; 1; 2; 2; 3].

(** One test segment over three true segments. *)
Definition merged_true : ndarray nat := Arr1 [1; 2; 3; 3].
Definition merged_test : ndarray nat := Arr1 [1; 1; 1; 2].

Definition single_segment : ndarray nat := Arr1 [1; 1; 1].

(** One background position in the true field. *)
Definition background_true : ndarray nat := Arr1 [1; 1; 1; 0].
Definition background_test : ndarray nat := Arr1 [1; 2; 2; 2].

Definition uniform_2x2 : ndarray nat := Arr2 [[1; 1]; [1; 1]].

(** The example of the docstring of [relabel_from_one]. *)
Definition docstring_field : ndarray nat := Arr1 [1; 1; 5; 5; 8; 99; 42].
Definition docstring_relabeled : ndarray nat := Arr1 [1; 1; 2; 2; 3; 5; 4].

(** * Properties *)

(** ** Sums over lists *)

Section SumLemmas.

Local Open Scope Z_scope.

Lemma zsum_app (l1 l2 : list Z) : zsum (l1 ++ l2) = zsum l1 + zsum l2.
Proof.
  induction l1 as [|x l1 IH]; simpl; [reflexivity|].
  rewrite IH. lia.
Qed.

Lemma zsum_flat_map {A : Type} (f : A -> list Z) (l : list A) :
  zsum (flat_map f l) = zsum (map (fun x => zsum (f x)) l).
Proof.
  induction l as [|x l IH]; simpl; [reflexivity|].
  rewrite zsum_app, IH. reflexivity.
Qed.

Lemma zsum_concat (m : list (list Z)) : zsum (concat m) = zsum (map zsum m).
Proof.
  induction m as [|r m IH]; simpl; [reflexivity|].
  rewrite zsum_app, IH. reflexivity.
Qed.

Lemma zsum_map_ext {A : Type} (f g : A -> Z) (l : list A) :
  (forall x, In x l -> f x = g x) -> zsum (map f l) = zsum (map g l).
Proof.
  intros H. f_equal. apply map_ext_in. exact H.
Qed.

Lemma zsum_map_zero {A : Type} (f : A -> Z) (l : list A) :
  (forall x, In x l -> f x = 0) -> zsum (map f l) = 0.
Proof.
  induction l as [|x l IH]; simpl; intros H; [reflexivity|].
  rewrite (H x), IH by auto. reflexivity.
Qed.

Lemma zsum_map_add {A : Type} (f g : A -> Z) (l : list A) :
  zsum (map (fun x => f x + g x) l) = zsum (map f l) + zsum (map g l).
Proof.
  induction l as [|x l IH]; simpl; [reflexivity|].
  rewrite IH. lia.
Qed.


(** Filtering first is the same as summing a guarded term. *)
Lemma zsum_map_filter {A : Type} (p : A -> bool) (f : A -> Z) (l : list A) :
  zsum (map f (filter p l)) = zsum (map (fun x => if p x then f x else 0) l).
Proof.
  induction l as [|x l IH]; simpl; [reflexivity|].
  destruct (p x); simpl; rewrite IH; reflexivity.
Qed.

(** Elements dropped by a filter do not matter when their term is zero. *)
Lemma zsum_filter_zero {A : Type} (p : A -> bool) (f : A -> Z) (l : list A) :
  (forall x, In x l -> p x = false -> f x = 0) ->
  zsum (map f (filter p l)) = zsum (map f l).
Proof.
  intros H. rewrite zsum_map_filter. apply zsum_map_ext.
  intros x Hx. destruct (p x) eqn:E; [reflexivity|].
  symmetry. apply H; assumption.
Qed.

(** A sum over an index range that is guarded by [k = i] picks one term. *)
Lemma zsum_pick_out (f : nat -> Z) (i s n : nat) :
  (i < s \/ s + n <= i)%nat ->
  zsum (map (fun k => if (k =? i)%nat then f k else 0) (seq s n)) = 0.
Proof.
  intros H. apply zsum_map_zero. intros k Hk.
  apply in_seq in Hk. destruct (Nat.eqb_spec k i); [lia|reflexivity].
Qed.

Lemma zsum_pick_in (f : nat -> Z) (i s n : nat) :
  (s <= i < s + n)%nat ->
  zsum (map (fun k => if (k =? i)%nat then f k else 0) (seq s n)) = f i.
Proof.
  revert s. induction n as [|n IH]; intros s H; [lia|].
  simpl. destruct (Nat.eqb_spec s i) as [->|Hne].
  - rewrite zsum_pick_out by lia. lia.
  - rewrite IH by lia. lia.
Qed.

Lemma zsum_pick0 (f : nat -> Z) (i n : nat) :
  (i < n)%nat ->
  zsum (map (fun k => if (k =? i)%nat then f k else 0) (seq 0 n)) = f i.
Proof.
  intros H. apply zsum_pick_in. lia.
Qed.

(** Exchanging two finite sums. *)
Lemma zsum_exchange {A B : Type} (f : A -> B -> Z) (la : list A) (lb : list B) :
  zsum (map (fun a => zsum (map (fun b => f a b) lb)) la) =
  zsum (map (fun b => zsum (map (fun a => f a b) la)) lb).
Proof.
  induction la as [|a la IH]; simpl.
  - symmetry. apply zsum_map_zero. reflexivity.
  - rewrite IH, <- zsum_map_add. reflexivity.
Qed.

Lemma zsum_nonneg {A : Type} (f : A -> Z) (l : list A) :
  (forall x, In x l -> 0 <= f x) -> 0 <= zsum (map f l).
Proof.
  induction l as [|x l IH]; simpl; intros H; [lia|].
  assert (0 <= f x) by auto. assert (0 <= zsum (map f l)) by auto. lia.
Qed.


End SumLemmas.

(** ** The contingency table *)

Section ContingencyLemmas.

Lemma mask_set_repeat {A B : Type} (a x : A) (g : B -> bool) (l : list B) :
  mask_set (repeat a (length l)) (map g l) x =
  Ok (map (fun y => if g y then x else a) l).
Proof.
  unfold mask_set.
  rewrite repeat_length, length_map, Nat.eqb_refl. f_equal.
  induction l as [|y l IH]; simpl; [reflexivity|].
  rewrite IH. reflexivity.
Qed.

Lemma mask_set_map {A B C : Type} (h : B -> A) (g : C -> bool) (x : A)
  (l1 : list B) (l2 : list C) :
  length l1 = length l2 ->
  mask_set (map h l1) (map g l2) x =
  Ok (map (fun p => if g (snd p) then x else h (fst p)) (combine l1 l2)).
Proof.
  intros Hlen. unfold mask_set.
  rewrite !length_map, Hlen, Nat.eqb_refl. f_equal.
  revert l2 Hlen. induction l1 as [|y l1 IH]; intros [|z l2] Hlen;
    simpl in *; try discriminate; [reflexivity|].
  rewrite IH by lia. reflexivity.
Qed.

Lemma combine_map_r {A B : Type} (f : A -> B) (l : list A) :
  combine l (map f l) = map (fun x => (x, f x)) l.
Proof.
  induction l as [|x l IH]; simpl; [reflexivity|].
  rewrite IH. reflexivity.
Qed.

(** What [contingency_table] returns on two fields of the same, non-zero
    size. *)
Lemma contingency_table_eq (im_true im_test : ndarray nat) :
  size im_true = size im_test ->
  size im_test <> 0 ->
  contingency_table im_true im_test =
  Ok (tocsr (mk_coo (S (list_max (ravel im_test)),
                     S (list_max (ravel im_true)))
                    (map weight (label_pairs im_true im_test))
                    (ravel im_test) (ravel im_true))).
Proof.
  unfold size, contingency_table, label_pairs.
  intros Hlen Hne.
  set (te := ravel im_test) in *. set (tr := ravel im_true) in *.
  rewrite mask_set_repeat. cbn [bind].
  rewrite mask_set_map by (symmetry; exact Hlen). cbn [bind].
  replace (length tr) with (length (combine te tr))
    by (rewrite length_combine; lia).
  rewrite mask_set_repeat. cbn [bind].
  rewrite (map_ext _ weight).
  2:{ intros [a b]. unfold weight. cbn [fst snd].
      destruct (b =? 0), (a =? 0); reflexivity. }
  unfold coo_matrix.
  rewrite length_map, length_combine, <- Hlen, Nat.min_id.
  rewrite !Nat.eqb_refl. cbn [andb negb bind].
  destruct te; [contradiction Hne; reflexivity|]. reflexivity.
Qed.

Lemma contingency_table_size (im_true im_test : ndarray nat) (cont : csr) :
  contingency_table im_true im_test = Ok cont ->
  size im_true = size im_test /\ size im_test <> 0.
Proof.
  unfold size, contingency_table.
  set (te := ravel im_test). set (tr := ravel im_true).
  rewrite mask_set_repeat. cbn [bind].
  unfold mask_set at 1. rewrite !length_map.
  destruct (Nat.eqb_spec (length te) (length tr)) as [Hlen|Hlen];
    [|discriminate].
  cbn [bind]. intros H. split; [lia|].
  intros H0. apply length_zero_iff_nil in H0.
  assert (Htr : tr = []) by (apply length_zero_iff_nil; rewrite <- Hlen, H0; reflexivity).
  rewrite H0, Htr in H. cbn in H. discriminate.
Qed.

End ContingencyLemmas.

(** ** Conversion to compressed rows *)

Section ToCsr.

Local Open Scope Z_scope.

Variable es : list (nat * nat * Z).
Variables nr nc : nat.

Lemma coo_cell_not_stored (i j : nat) :
  coo_stored es i j = false -> coo_cell es i j = 0.
Proof.
  unfold coo_stored, coo_cell. intros H.
  rewrite zsum_map_filter. apply zsum_map_zero. intros e He.
  destruct (at_coord i j e) eqn:E; [|reflexivity].
  assert (existsb (at_coord i j) es = true)
    by (apply existsb_exists; exists e; auto).
  congruence.
Qed.

(** Summing a function of the stored values of a row is summing it over
    all cells of the row, when the function vanishes at zero. *)
Lemma row_sum_cells (g : Z -> Z) (i : nat) :
  g 0 = 0 ->
  zsum (map g (map snd (row_of es nc i))) =
  zsum (map (fun j => g (coo_cell es i j)) (seq 0 nc)).
Proof.
  intros Hg. unfold row_of. rewrite !map_map. cbn [snd].
  apply zsum_filter_zero. intros j _ Hj.
  rewrite coo_cell_not_stored by exact Hj. exact Hg.
Qed.

Lemma row_get (i j : nat) :
  zsum (map snd (filter (fun e => (fst e =? j)%nat) (row_of es nc i))) =
  if (j <? nc)%nat then coo_cell es i j else 0.
Proof.
  unfold row_of. rewrite zsum_map_filter, map_map. cbn [fst snd].
  rewrite zsum_filter_zero.
  - destruct (Nat.ltb_spec j nc).
    + apply zsum_pick0. assumption.
    + apply zsum_pick_out. lia.
  - intros k _ Hk. rewrite coo_cell_not_stored by exact Hk.
    destruct (k =? j)%nat; reflexivity.
Qed.

Lemma nth_rows (i : nat) :
  nth i (map (row_of es nc) (seq 0 nr)) [] = if (i <? nr)%nat then row_of es nc i else [].
Proof.
  destruct (Nat.ltb_spec i nr) as [H|H].
  - rewrite (nth_indep _ [] (row_of es nc 0)) by (rewrite length_map, length_seq; lia).
    rewrite map_nth, seq_nth by lia. reflexivity.
  - apply nth_overflow. rewrite length_map, length_seq. lia.
Qed.

End ToCsr.

Lemma tocsr_unfold (c : coo) :
  tocsr c =
  mk_csr (snd (coo_shape c))
         (map (row_of (coo_entries c) (snd (coo_shape c)))
              (seq 0 (fst (coo_shape c)))).
Proof. reflexivity. Qed.

Section TableOfPairs.

Local Open Scope Z_scope.

(** The table built from the pairs [ps], with [nr] rows and [nc]
    columns. *)
Variable ps : list (nat * nat).
Variables nr nc : nat.

Let es : list (nat * nat * Z) := combine ps (map weight ps).
Let table : csr := mk_csr nc (map (row_of es nc) (seq 0 nr)).

Lemma coo_cell_joint (i j : nat) : coo_cell es i j = joint_count ps i j.
Proof.
  unfold es, coo_cell, joint_count. rewrite combine_map_r.
  rewrite zsum_map_filter, map_map. reflexivity.
Qed.


Lemma table_get (i j : nat) :
  csr_get table i j =
  if ((i <? nr) && (j <? nc))%nat then joint_count ps i j else 0.
Proof.
  unfold csr_get, table. cbn [csr_rows]. rewrite nth_rows.
  destruct (i <? nr)%nat; cbn [andb]; [|reflexivity].
  rewrite row_get, coo_cell_joint. reflexivity.
Qed.

Lemma table_sum_axis1 :
  sum_axis1 table = map (fun i => [row_total ps nc i]) (seq 0 nr).
Proof.
  unfold sum_axis1, table. cbn [csr_rows]. rewrite map_map.
  apply map_ext. intros i. f_equal.
  rewrite <- (map_id (map snd (row_of es nc i))).
  rewrite row_sum_cells by reflexivity.
  unfold row_total. apply zsum_map_ext. intros j _. apply coo_cell_joint.
Qed.

Lemma table_sum_axis0 :
  sum_axis0 table = [map (col_total ps nr) (seq 0 nc)].
Proof.
  unfold sum_axis0, table. cbn [csr_rows csr_ncols]. f_equal.
  apply map_ext_in. intros j Hj. apply in_seq in Hj.
  rewrite map_map. unfold col_total. apply zsum_map_ext. intros i _.
  rewrite row_get, coo_cell_joint.
  replace (j <? nc)%nat with true by (symmetry; apply Nat.ltb_lt; lia).
  reflexivity.
Qed.

(** Summing a function of the stored data is summing it over all cells. *)
Lemma table_data_sum (g : Z -> Z) :
  g 0 = 0 ->
  zsum (map g (csr_data table)) =
  zsum (map (fun i => zsum (map (fun j => g (joint_count ps i j)) (seq 0 nc)))
            (seq 0 nr)).
Proof.
  intros Hg. unfold csr_data, table. cbn [csr_rows].
  rewrite flat_map_concat_map, concat_map, zsum_concat, !map_map.
  apply zsum_map_ext. intros i _.
  rewrite row_sum_cells by exact Hg.
  apply zsum_map_ext. intros j _. rewrite coo_cell_joint. reflexivity.
Qed.

Lemma pick_pair (p : nat * nat) (w : Z) :
  (fst p < nr)%nat -> (snd p < nc)%nat ->
  zsum (map (fun i =>
               zsum (map (fun j =>
                            if ((fst p =? i) && (snd p =? j))%nat
                            then w else 0) (seq 0 nc)))
            (seq 0 nr)) = w.
Proof.
  intros Hr Hc.
  rewrite (zsum_map_ext _ (fun i => if (i =? fst p)%nat then w else 0)).
  - apply (zsum_pick0 (fun _ => w)). exact Hr.
  - intros i _. rewrite (Nat.eqb_sym (fst p) i).
    destruct (i =? fst p)%nat; cbn [andb].
    + rewrite (zsum_map_ext _ (fun j => if (j =? snd p)%nat then w else 0)).
      * apply (zsum_pick0 (fun _ => w)). exact Hc.
      * intros j _. rewrite Nat.eqb_sym. reflexivity.
    + apply zsum_map_zero. reflexivity.
Qed.

End TableOfPairs.

Section TableTotals.

Local Open Scope Z_scope.

Lemma joint_count_cons (p : nat * nat) (ps : list (nat * nat)) (i j : nat) :
  joint_count (p :: ps) i j =
  (if ((fst p =? i) && (snd p =? j))%nat then weight p else 0)
  + joint_count ps i j.
Proof. reflexivity. Qed.

Lemma joint_total (ps : list (nat * nat)) (nr nc : nat) :
  (forall p, In p ps -> (fst p < nr)%nat) ->
  (forall p, In p ps -> (snd p < nc)%nat) ->
  zsum (map (fun i => zsum (map (fun j => joint_count ps i j) (seq 0 nc)))
            (seq 0 nr)) = zsum (map weight ps).
Proof.
  induction ps as [|p ps IH]; intros Hr Hc.
  - apply zsum_map_zero. intros i _. apply zsum_map_zero. reflexivity.
  - change (zsum (map weight (p :: ps)))
      with (weight p + zsum (map weight ps)).
    rewrite <- IH by (intros; auto with datatypes).
    rewrite <- (pick_pair nr nc p (weight p)) at 1 by auto with datatypes.
    rewrite <- zsum_map_add. apply zsum_map_ext. intros i _.
    rewrite <- zsum_map_add. apply zsum_map_ext. intros j _.
    apply joint_count_cons.
Qed.

Lemma weight_total (ps : list (nat * nat)) :
  zsum (map weight ps) =
  Z.of_nat (length (filter (fun p => negb (fst p =? 0)%nat
                                     && negb (snd p =? 0)%nat) ps)).
Proof.
  induction ps as [|[a b] ps IH]; [reflexivity|].
  change (zsum (map weight ((a, b) :: ps)))
    with (weight (a, b) + zsum (map weight ps)).
  rewrite IH. cbn [filter]. unfold weight. cbn [fst snd].
  destruct (a =? 0)%nat, (b =? 0)%nat; cbn [negb andb orb length]; lia.
Qed.

Lemma list_max_ge (l : list nat) (x : nat) :
  In x l -> (x <= list_max l)%nat.
Proof.
  intros H.
  assert (Hall : Forall (fun k => (k <= list_max l)%nat) l)
    by (apply list_max_le; lia).
  rewrite Forall_forall in Hall. auto.
Qed.

Lemma pairs_rows_cover (te tr : list nat) (p : nat * nat) :
  In p (combine te tr) -> (fst p < S (list_max te))%nat.
Proof.
  destruct p as [a b]. intros H. apply in_combine_l in H.
  apply list_max_ge in H. cbn [fst]. lia.
Qed.

Lemma pairs_cols_cover (te tr : list nat) (p : nat * nat) :
  In p (combine te tr) -> (snd p < S (list_max tr))%nat.
Proof.
  destruct p as [a b]. intros H. apply in_combine_r in H.
  apply list_max_ge in H. cbn [snd]. lia.
Qed.

Lemma length_concat_const {A : Type} (m : list (list A)) (c : nat) :
  forallb (fun r => (length r =? c)%nat) m = true ->
  length (concat m) = (length m * c)%nat.
Proof.
  induction m as [|r m IH]; cbn [forallb concat length]; [reflexivity|].
  intros H. apply andb_true_iff in H. destruct H as [H1 H2].
  apply Nat.eqb_eq in H1. rewrite length_app, IH, H1 by exact H2.
  cbn [Nat.mul]. reflexivity.
Qed.

(** Well-formed arrays of the same shape have the same number of
    elements. *)
Lemma shape_size {A B : Type} (a : ndarray A) (b : ndarray B) :
  wf a = true -> wf b = true -> shape a = shape b -> size a = size b.
Proof.
  unfold size. destruct a as [v|m], b as [v'|m']; cbn [shape ravel wf];
    intros Ha Hb Hs; try discriminate.
  - injection Hs. auto.
  - injection Hs as H1 H2.
    rewrite (length_concat_const _ _ Ha), (length_concat_const _ _ Hb).
    congruence.
Qed.

End TableTotals.

Lemma contingency_table_table_of (im_true im_test : ndarray nat) :
  size im_true = size im_test ->
  size im_test <> 0 ->
  contingency_table im_true im_test = Ok (table_of im_true im_test).
Proof.
  intros H1 H2. rewrite contingency_table_eq by assumption. reflexivity.
Qed.

Lemma contingency_table_inv (im_true im_test : ndarray nat) (cont : csr) :
  contingency_table im_true im_test = Ok cont ->
  cont = table_of im_true im_test.
Proof.
  intros H. destruct (contingency_table_size _ _ _ H) as [H1 H2].
  rewrite contingency_table_table_of in H by assumption. congruence.
Qed.

Lemma table_of_sum (im_true im_test : ndarray nat) :
  csr_sum (table_of im_true im_test) =
  Z.of_nat (both_nonzero im_true im_test).
Proof.
  unfold csr_sum, table_of, both_nonzero.
  set (ps := label_pairs im_true im_test).
  rewrite <- (map_id (csr_data _)).
  rewrite (table_data_sum ps _ _ (fun x => x)) by reflexivity.
  rewrite joint_total.
  - apply weight_total.
  - apply pairs_rows_cover.
  - apply pairs_cols_cover.
Qed.

Lemma table_of_border (im_true im_test : ndarray nat) (i j : nat) :
  i = 0 \/ j = 0 -> csr_get (table_of im_true im_test) i j = 0%Z.
Proof.
  intros H. unfold table_of. rewrite table_get.
  destruct (_ && _); [|reflexivity].
  apply zsum_map_zero. intros [a b] _. unfold weight. cbn [fst snd].
  destruct (Nat.eqb_spec a i), (Nat.eqb_spec b j); cbn [andb]; try reflexivity.
  subst a b. destruct H as [-> | ->]; cbn [Nat.eqb orb]; [reflexivity|].
  rewrite orb_true_r. reflexivity.
Qed.

(** C8.  For two label fields of identical shape, [contingency_table]
    returns a table (the fields being non-empty) whose total is the number of
    positions where both fields are non-zero, and whose entries in row 0 and
    in column 0 are all zero. *)
Theorem contingency_table_total_and_border (im_true im_test : ndarray nat) :
  wf im_true = true -> wf im_test = true ->
  shape im_true = shape im_test ->
  (size im_test <> 0 ->
   exists cont, contingency_table im_true im_test = Ok cont) /\
  (forall cont, contingency_table im_true im_test = Ok cont ->
     csr_sum cont = Z.of_nat (both_nonzero im_true im_test) /\
     forall i j, i = 0 \/ j = 0 -> csr_get cont i j = 0%Z).
Proof.
  intros Ht Hs Hshape. split.
  - intros Hne. exists (table_of im_true im_test).
    apply contingency_table_table_of; [|exact Hne].
    apply shape_size; assumption.
  - intros cont Hc. apply contingency_table_inv in Hc. subst cont. split.
    + apply table_of_sum.
    + apply table_of_border.
Qed.

Lemma contingency_table_total_and_border_witness :
  (exists cont, contingency_table scenario_true scenario_test = Ok cont) /\
  (forall cont, contingency_table scenario_true scenario_test = Ok cont ->
     csr_sum cont = 6%Z /\
     forall i j, i = 0 \/ j = 0 -> csr_get cont i j = 0%Z).
Proof.
  destruct (contingency_table_total_and_border scenario_true scenario_test)
    as [H1 H2]; [reflexivity | reflexivity | reflexivity |].
  split; [apply H1; vm_compute; lia | exact H2].
Defined.

(** ** Relabelling *)

Section RelabelLemmas.

Lemma insert_unique_in (x y : nat) (l : list nat) :
  In y (insert_unique x l) <-> y = x \/ In y l.
Proof.
  induction l as [|z l IH]; cbn [insert_unique].
  - cbn [In]. intuition auto.
  - destruct (Nat.ltb_spec x z); [cbn [In]; intuition auto|].
    destruct (Nat.eqb_spec x z) as [->|Hne]; cbn [In].
    + intuition auto.
    + rewrite IH. intuition auto.
Qed.

Lemma unique_in (y : nat) (l : list nat) : In y (unique l) <-> In y l.
Proof.
  induction l as [|x l IH]; [reflexivity|].
  cbn [unique fold_right]. fold (unique l).
  rewrite insert_unique_in, IH. cbn [In]. intuition auto.
Qed.

Lemma unique_max_ge (l : list nat) (x : nat) :
  In x l -> x <= list_max (unique l).
Proof.
  intros H. apply list_max_ge. apply unique_in. exact H.
Qed.

Lemma unique_nonempty (l : list nat) : l <> [] -> unique l <> [].
Proof.
  destruct l as [|x l]; [congruence|]. intros _ H.
  assert (Hx : In x (unique (x :: l))) by (apply unique_in; left; reflexivity).
  rewrite H in Hx. exact Hx.
Qed.

Lemma set_nth_length {A : Type} (a : list A) (i : nat) (x : A) :
  length (set_nth a i x) = length a.
Proof.
  revert i. induction a as [|y a IH]; intros [|i]; cbn [set_nth length];
    auto.
Qed.

Lemma scatter_length {A : Type} (a : list A) (idx : list nat) (vals : list A) :
  length (scatter a idx vals) = length a.
Proof.
  revert a vals. induction idx as [|i idx IH]; intros a [|x vals];
    cbn [scatter]; try reflexivity.
  rewrite IH. apply set_nth_length.
Qed.

Lemma mapM_getitem (a l : list nat) :
  (forall v, In v l -> v < length a) ->
  mapM (getitem a) l = Ok (map (fun v => nth v a 0) l).
Proof.
  induction l as [|v l IH]; intros H; [reflexivity|].
  cbn [mapM map]. unfold getitem at 1.
  assert (Hv : v < length a) by (apply H; left; reflexivity).
  destruct (nth_error a v) as [y|] eqn:E.
  - cbn [bind]. rewrite IH by (intros; apply H; right; assumption).
    cbn [bind]. rewrite (nth_error_nth _ _ 0 E). reflexivity.
  - apply nth_error_None in E. lia.
Qed.

Lemma mapM_ok {A B : Type} (f : A -> result B) (g : A -> B) (l : list A) :
  (forall x, In x l -> f x = Ok (g x)) -> mapM f l = Ok (map g l).
Proof.
  induction l as [|x l IH]; intros H; [reflexivity|].
  cbn [mapM map]. rewrite (H x) by (left; reflexivity). cbn [bind].
  rewrite IH by (intros; apply H; right; assumption). reflexivity.
Qed.

(** Indexing with labels that are all in range. *)
Lemma take_in_range (a : list nat) (x : ndarray nat) :
  (forall v, In v (ravel x) -> v < length a) ->
  take a x = Ok (amap (fun v => nth v a 0) x).
Proof.
  destruct x as [l|m]; cbn [ravel take amap]; intros H.
  - rewrite mapM_getitem by exact H. reflexivity.
  - rewrite (mapM_ok _ (map (fun v => nth v a 0))); [reflexivity|].
    intros r Hr. apply mapM_getitem. intros v Hv. apply H.
    apply in_concat. exists r. auto.
Qed.

Lemma amap_shape {A B : Type} (f : A -> B) (x : ndarray A) :
  shape (amap f x) = shape x.
Proof.
  destruct x as [l|m]; cbn [amap shape].
  - rewrite length_map. reflexivity.
  - rewrite length_map. destruct m; cbn [map ncols_of];
      [|rewrite length_map]; reflexivity.
Qed.

Lemma amap_wf {A B : Type} (f : A -> B) (x : ndarray A) :
  wf (amap f x) = wf x.
Proof.
  destruct x as [l|m]; cbn [amap wf]; [reflexivity|].
  replace (ncols_of (map (map f) m)) with (ncols_of m)
    by (destruct m; cbn [map ncols_of]; [|rewrite length_map]; reflexivity).
  generalize (ncols_of m) as c. intros c.
  induction m as [|r m IH]; cbn [map forallb]; [reflexivity|].
  rewrite length_map, IH. reflexivity.
Qed.

Lemma amap_ravel {A B : Type} (f : A -> B) (x : ndarray A) :
  ravel (amap f x) = map f (ravel x).
Proof.
  destruct x as [l|m]; cbn [amap ravel]; [reflexivity|].
  symmetry. apply concat_map.
Qed.

(** [relabel_from_one] succeeds on a non-empty field and keeps its
    shape. *)
Lemma relabel_from_one_ok (x : ndarray nat) :
  size x <> 0 ->
  exists r fw inv,
    relabel_from_one x = Ok (r, fw, inv) /\
    shape r = shape x /\ wf r = wf x.
Proof.
  intros Hne. unfold relabel_from_one.
  assert (Hx : ravel x <> [])
    by (intros E; apply Hne; unfold size; rewrite E; reflexivity).
  pose proof (unique_nonempty _ Hx) as Hu.
  unfold amax. destruct (unique (ravel x)) as [|u0 us] eqn:Eu;
    [congruence|].
  cbn [bind]. rewrite <- Eu.
  destruct (list_max (unique (ravel x)) =? _).
  - eauto 6.
  - rewrite take_in_range.
    + cbn [bind]. do 3 eexists. split; [reflexivity|].
      split; [apply amap_shape | apply amap_wf].
    + intros v Hv. rewrite scatter_length, repeat_length.
      apply unique_max_ge in Hv. lia.
Qed.

End RelabelLemmas.

(** ** The edit distance *)

Section EditDistance.

Local Open Scope Z_scope.

Lemma collapse_overlaps (thr : Q) (x : Z) :
  self_divide (zero_small thr x) = if overlaps thr x then 1 else 0.
Proof.
  unfold self_divide, zero_small, overlaps.
  destruct (Qle_bool (inject_Z x) thr); cbn [negb andb]; [reflexivity|].
  destruct (Z.eqb_spec x 0) as [->|Hx]; cbn [negb]; [reflexivity|].
  apply Z.div_same. exact Hx.
Qed.

Lemma zsum_count {A : Type} (p : A -> bool) (l : list A) :
  zsum (map (fun x => if p x then 1 else 0) l) =
  Z.of_nat (length (filter p l)).
Proof.
  induction l as [|x l IH]; [reflexivity|].
  cbn [map filter]. change (zsum (?a :: ?t)) with (a + zsum t).
  rewrite IH. destruct (p x); cbn [length]; lia.
Qed.

Lemma joint_count_col0 (ps : list (nat * nat)) (i : nat) :
  joint_count ps i 0 = 0.
Proof.
  apply zsum_map_zero. intros [a b] _. unfold weight. cbn [fst snd].
  destruct (a =? i)%nat, (Nat.eqb_spec b 0); cbn [andb]; try reflexivity.
  rewrite orb_true_r. reflexivity.
Qed.

Lemma msum_singletons {A : Type} (f : A -> Z) (l : list A) :
  msum (map (fun i => [f i]) l) = zsum (map f l).
Proof.
  unfold msum. induction l as [|x l IH]; [reflexivity|].
  cbn [map concat app]. change (zsum (?a :: ?t)) with (a + zsum t).
  rewrite IH. reflexivity.
Qed.

(** The first component that the code computes from the table of two
    relabelled fields. *)
Lemma thresholded_row_sums (thr : Q) (im_true im_test : ndarray nat) :
  let r := csr_map_data (zero_small thr) (table_of im_true im_test) in
  let r := csr_map_data self_divide r in
  msum (mrows_from1 (msub (sum_axis1 r) 1)) =
  sum_over_test_rows thr im_true im_test.
Proof.
  cbv zeta. unfold csr_map_data, sum_axis1, table_of.
  cbn [csr_rows csr_ncols].
  set (ps := label_pairs im_true im_test).
  set (es := combine ps (map weight ps)).
  set (nc := S (list_max (ravel im_true))).
  unfold msub. rewrite !map_map.
  cbn [seq map mrows_from1 tl]. rewrite <- seq_shift, map_map.
  refine (eq_trans (msum_singletons _ _) _).
  unfold sum_over_test_rows. rewrite <- seq_shift, map_map.
  apply zsum_map_ext. intros i _. f_equal.
  rewrite !map_map. cbn [fst snd].
  rewrite <- (map_map snd (fun x => self_divide (zero_small thr x))).
  rewrite row_sum_cells
    by (rewrite collapse_overlaps; unfold overlaps;
        rewrite andb_false_r; reflexivity).
  rewrite (zsum_map_ext _ (fun j => if overlaps thr (joint_count ps (S i) j)
                                    then 1 else 0)).
  2:{ intros j _. unfold es. rewrite coo_cell_joint. apply collapse_overlaps. }
  rewrite zsum_count. unfold true_segments_overlapped. fold ps.
  unfold nc. cbn [seq filter]. rewrite joint_count_col0.
  replace (overlaps thr 0) with false
    by (unfold overlaps; rewrite andb_false_r; reflexivity).
  reflexivity.
Qed.

End EditDistance.

(** X19.  Whenever [compare_raw_edit_distance] returns, its second
    component, [false_splits], is 0: it is computed by slicing the rows of
    the (1 x n) matrix of column sums from row 1 on, which leaves nothing. *)
Lemma false_splits_zero (im_true im_test : ndarray nat) (thr : Q) (fm fs : Z) :
  compare_raw_edit_distance im_true im_test thr = Ok (fm, fs) -> fs = 0%Z.
Proof.
  unfold compare_raw_edit_distance.
  destruct (_assert_compatible im_true im_test); [|discriminate].
  destruct (relabel_from_one im_test); [|discriminate].
  destruct (relabel_from_one im_true); [|discriminate].
  cbn [bind]. destruct (contingency_table _ _); [|discriminate].
  cbn [bind]. intros H. injection H as _ H. rewrite <- H. reflexivity.
Qed.

(** C4 (amended).  For two non-empty label fields of identical shape, the
    first component returned by [compare_raw_edit_distance] ([false_merges])
    is the sum, over the segments of the relabelled test field, of the number
    of true segments that the test segment overlaps by more than
    [size_threshold] positions, minus 1. *)
Theorem false_merges_sum_over_test_rows
  (im_true im_test : ndarray nat) (size_threshold : Q) :
  wf im_true = true -> wf im_test = true ->
  shape im_true = shape im_test ->
  size im_test <> 0 ->
  exists te fw1 inv1 tr fw2 inv2 fs,
    relabel_from_one im_test = Ok (te, fw1, inv1) /\
    relabel_from_one im_true = Ok (tr, fw2, inv2) /\
    compare_raw_edit_distance im_true im_test size_threshold =
    Ok (sum_over_test_rows size_threshold tr te, fs).
Proof.
  intros Wt Ws Hshape Hne.
  assert (Hsz : size im_true = size im_test) by (apply shape_size; assumption).
  destruct (relabel_from_one_ok im_test Hne)
    as (te & fw1 & inv1 & E1 & S1 & W1).
  destruct (relabel_from_one_ok im_true) as (tr & fw2 & inv2 & E2 & S2 & W2);
    [lia|].
  exists te, fw1, inv1, tr, fw2, inv2.
  assert (Hsz' : size tr = size te).
  { apply shape_size; congruence. }
  assert (Hne' : size te <> 0).
  { rewrite (shape_size te im_test) by congruence. exact Hne. }
  unfold compare_raw_edit_distance, _assert_compatible.
  destruct (list_eq_dec Nat.eq_dec (shape im_true) (shape im_test));
    [|contradiction].
  cbn [bind]. rewrite E1, E2. cbn [bind fst].
  rewrite contingency_table_table_of by assumption. cbn [bind].
  eexists. split; [reflexivity|]. split; [reflexivity|].
  rewrite thresholded_row_sums. reflexivity.
Qed.

Lemma false_merges_sum_over_test_rows_witness :
  exists te fw1 inv1 tr fw2 inv2 fs,
    relabel_from_one scenario_test = Ok (te, fw1, inv1) /\
    relabel_from_one scenario_true = Ok (tr, fw2, inv2) /\
    compare_raw_edit_distance scenario_true scenario_test 0 =
    Ok (sum_over_test_rows 0 tr te, fs).
Proof.
  apply (false_merges_sum_over_test_rows scenario_true scenario_test 0);
    [reflexivity | reflexivity | reflexivity | vm_compute; lia].
Defined.

(** C4 (counterexample).  With [true = [1,2,3,3]] and [test = [1,1,1,2]]
    the sum over test rows is 2 and the sum over true columns is 1, but the
    code returns [false_merges = 2] and [false_splits = 0]. *)
Lemma splits_by_rows_merges_by_columns_fails :
  ~ splits_by_rows_merges_by_columns merged_true merged_test 0.
Proof.
  intros H.
  destruct (H merged_test [1; 2] [1; 2] merged_true [1; 2; 3] [1; 2; 3]
              2%Z 0%Z) as [H1 H2]; try (vm_compute; reflexivity).
  vm_compute in H2. discriminate.
Qed.

(** C3 (counterexample).  On the scenario of the specification the code
    does not return (1.0, 1.0). *)
Lemma scenario_not_one_merge_one_split :
  compare_raw_edit_distance scenario_true scenario_test 0 <> Ok (1%Z, 1%Z).
Proof. vm_compute. discriminate. Qed.

(** C3 (amended).  On [true = [1,1,2,2,3,3]], [test = [1,1,1,2,2,3]] and
    [size_threshold = 0], [compare_raw_edit_distance] reports two false
    merges: test segments 1 and 2 each overlap two true segments. *)
Theorem scenario_two_false_merges :
  exists false_splits,
    compare_raw_edit_distance scenario_true scenario_test 0 =
    Ok (2%Z, false_splits).
Proof. exists 0%Z. vm_compute. reflexivity. Qed.

(** ** The adapted Rand error *)

Section AdaptedRand.

Local Open Scope Z_scope.

Lemma dot_self (l : list Z) : dot l l = zsum (map sq l).
Proof.
  unfold dot. induction l as [|x l IH]; [reflexivity|].
  cbn [combine map]. change (zsum (?a :: ?t)) with (a + zsum t).
  rewrite IH. reflexivity.
Qed.

Lemma table_of_sq_data (im_true im_test : ndarray nat) :
  zsum (map sq (csr_data (table_of im_true im_test))) =
  sum_p_ij im_true im_test.
Proof.
  unfold table_of. cbv zeta. rewrite table_data_sum by reflexivity.
  reflexivity.
Qed.

Lemma table_of_axis0 (im_true im_test : ndarray nat) :
  mravel (sum_axis0 (table_of im_true im_test)) =
  map (a_i im_true im_test) (seq 0 (true_cols im_true)).
Proof.
  unfold table_of. cbv zeta. rewrite table_sum_axis0.
  unfold mravel. cbn [concat]. rewrite app_nil_r. reflexivity.
Qed.

Lemma table_of_axis1 (im_true im_test : ndarray nat) :
  mravel (sum_axis1 (table_of im_true im_test)) =
  map (b_i im_true im_test) (seq 0 (test_rows im_test)).
Proof.
  unfold table_of. cbv zeta. rewrite table_sum_axis1.
  unfold mravel, test_rows.
  induction (seq 0 (S (list_max (ravel im_test)))) as [|i l IH];
    [reflexivity|].
  cbn [map concat app]. rewrite IH. reflexivity.
Qed.

End AdaptedRand.

(** C6.  For two non-empty label fields of identical shape,
    [compare_adapted_rand_error] returns [(are, precision, recall)] with
    [precision = (sum_p_ij - n)/(sum_a - n)],
    [recall = (sum_p_ij - n)/(sum_b - n)] and
    [are = 1 - 2*precision*recall/(precision + recall)], where [n] is the
    number of elements of the test image, background included. *)
Theorem adapted_rand_error_formula (im_true im_test : ndarray nat) :
  wf im_true = true -> wf im_test = true ->
  shape im_true = shape im_test ->
  size im_test <> 0 ->
  let n := Z.of_nat (size im_test) in
  let precision :=
    fdiv (fofZ (sum_p_ij im_true im_test - n))
         (fofZ (sum_a im_true im_test - n)) in
  let recall :=
    fdiv (fofZ (sum_p_ij im_true im_test - n))
         (fofZ (sum_b im_true im_test - n)) in
  compare_adapted_rand_error im_true im_test =
  Ok (fsub (Finite 1)
           (fdiv (fmul (fmul (Finite 2) precision) recall)
                 (fadd precision recall)),
      precision, recall).
Proof.
  intros Wt Ws Hshape Hne. cbv zeta.
  unfold compare_adapted_rand_error, _assert_compatible.
  destruct (list_eq_dec Nat.eq_dec (shape im_true) (shape im_test));
    [|contradiction].
  cbn [bind].
  rewrite contingency_table_table_of
    by (try apply shape_size; assumption).
  cbn [bind].
  rewrite table_of_axis0, table_of_axis1, !dot_self, table_of_sq_data.
  rewrite !map_map. reflexivity.
Qed.

(** With one background position out of four, [n] is 4 and not 3: the
    precision is (5 - 4)/(9 - 4). *)
Lemma adapted_rand_error_formula_witness :
  both_nonzero background_true background_test = 3 /\
  compare_adapted_rand_error background_true background_test =
  Ok (Finite (20 # 30), Finite (1 # 5), Finite 1).
Proof.
  split; [reflexivity|].
  rewrite (adapted_rand_error_formula background_true background_test);
    [vm_compute; reflexivity
    | reflexivity | reflexivity | reflexivity | vm_compute; lia].
Defined.

(** ** Rand values of a contingency table *)

Section RandValues.

Local Open Scope Z_scope.

Lemma multiply_sum (a b : csr) :
  csr_sum (multiply a b) =
  zsum (map (fun ir =>
               zsum (map (fun e => snd e * csr_get b (fst ir) (fst e))
                         (snd ir)))
            (combine (seq 0 (csr_nrows a)) (csr_rows a))).
Proof.
  unfold csr_sum, csr_data, multiply. cbn [csr_rows].
  rewrite zsum_flat_map, map_map. apply zsum_map_ext. intros ir _.
  rewrite map_map. reflexivity.
Qed.

Variables im_true im_test : ndarray nat.

Let ps := label_pairs im_true im_test.
Let nr := test_rows im_test.
Let nc := true_cols im_true.

Lemma table_of_total :
  csr_sum (table_of im_true im_test) =
  zsum (map (b_i im_true im_test) (seq 0 nr)).
Proof.
  unfold csr_sum, table_of. cbv zeta.
  rewrite <- (map_id (csr_data _)).
  rewrite (table_data_sum _ _ _ (fun x => x)) by reflexivity.
  reflexivity.
Qed.

Lemma table_of_multiply :
  csr_sum (multiply (table_of im_true im_test) (table_of im_true im_test)) =
  sum_p_ij im_true im_test.
Proof.
  rewrite multiply_sum. set (T := table_of im_true im_test).
  assert (Hrows : csr_rows T =
                  map (row_of (combine ps (map weight ps)) nc) (seq 0 nr))
    by reflexivity.
  unfold csr_nrows. rewrite Hrows, length_map, length_seq.
  rewrite combine_map_r, map_map. cbn [fst snd].
  unfold sum_p_ij. apply zsum_map_ext. intros i Hi.
  unfold row_of. rewrite map_map. cbn [fst snd].
  rewrite zsum_filter_zero.
  - apply zsum_map_ext. intros j Hj.
    unfold T, table_of. cbv zeta. rewrite table_get, coo_cell_joint.
    apply in_seq in Hi. apply in_seq in Hj.
    replace (i <? S (list_max (ravel im_test)))%nat with true
      by (symmetry; apply Nat.ltb_lt; unfold nr, test_rows in Hi; lia).
    replace (j <? S (list_max (ravel im_true)))%nat with true
      by (symmetry; apply Nat.ltb_lt; unfold nc, true_cols in Hj; lia).
    reflexivity.
  - intros j _ Hj. rewrite coo_cell_not_stored by exact Hj. reflexivity.
Qed.

(** [rand_values] in terms of the cell counts. *)
Lemma rand_values_table_of :
  rand_values (table_of im_true im_test) =
  let n := zsum (map (b_i im_true im_test) (seq 0 nr)) in
  let sum1 := sum_p_ij im_true im_test in
  let sum2 := sum_b im_true im_test in
  let sum3 := sum_a im_true im_test in
  ((inject_Z (sum1 - n) / 2)%Q,
   (inject_Z (sum2 - sum1) / 2)%Q,
   (inject_Z (sum3 - sum1) / 2)%Q,
   (inject_Z (sum1 + n * n - sum2 - sum3) / 2)%Q).
Proof.
  unfold rand_values.
  rewrite table_of_total, table_of_multiply, table_of_axis0, table_of_axis1.
  rewrite !map_map. reflexivity.
Qed.

End RandValues.

(** ** Comparing a field with itself *)

Section SelfComparison.

Local Open Scope Z_scope.

Lemma joint_self (l : list nat) (i j : nat) :
  joint_count (combine l l) i j =
  if (i =? j)%nat
  then (if (i =? 0)%nat then 0 else Z.of_nat (count_occ Nat.eq_dec l i))
  else 0.
Proof.
  induction l as [|v l IH].
  - cbn. destruct (i =? j)%nat, (i =? 0)%nat; reflexivity.
  - cbn [combine]. rewrite joint_count_cons, IH. cbn [fst snd count_occ].
    unfold weight. cbn [fst snd].
    destruct (Nat.eq_dec v i) as [->|Hvi].
    + rewrite Nat.eqb_refl. cbn [andb]. rewrite orb_diag.
      destruct (i =? j)%nat, (i =? 0)%nat; lia.
    + replace (v =? i)%nat with false by (symmetry; apply Nat.eqb_neq; exact Hvi).
      cbn [andb]. lia.
Qed.

Variable x : ndarray nat.

Let n := test_rows x.

Lemma self_joint (i j : nat) :
  joint_count (label_pairs x x) i j =
  if (i =? j)%nat then label_count x i else 0.
Proof. unfold label_pairs, label_count. apply joint_self. Qed.

Lemma self_b_i (i : nat) :
  (i < n)%nat -> b_i x x i = label_count x i.
Proof.
  intros Hi. unfold b_i, row_total.
  rewrite (zsum_map_ext _ (fun j => if (j =? i)%nat then label_count x i else 0)).
  - apply (zsum_pick0 (fun _ => label_count x i)). exact Hi.
  - intros j _. rewrite self_joint, Nat.eqb_sym. reflexivity.
Qed.

Lemma self_a_i (j : nat) :
  (j < n)%nat -> a_i x x j = label_count x j.
Proof.
  intros Hj. unfold a_i, col_total.
  rewrite (zsum_map_ext _ (fun i => if (i =? j)%nat then label_count x i else 0)).
  - apply (zsum_pick0 (label_count x)). exact Hj.
  - intros i _. rewrite self_joint. reflexivity.
Qed.

Lemma self_total :
  zsum (map (b_i x x) (seq 0 (test_rows x))) = counted x.
Proof.
  apply zsum_map_ext. intros i Hi. apply in_seq in Hi.
  apply self_b_i. unfold n. lia.
Qed.

Lemma self_sum_b : sum_b x x = squared_sizes x.
Proof.
  apply zsum_map_ext. intros i Hi. apply in_seq in Hi.
  rewrite self_b_i by (unfold n; lia). reflexivity.
Qed.

Lemma self_sum_a : sum_a x x = squared_sizes x.
Proof.
  apply zsum_map_ext. intros i Hi. apply in_seq in Hi.
  rewrite self_a_i by (unfold n, true_cols, test_rows in *; lia).
  reflexivity.
Qed.

Lemma self_sum_p_ij : sum_p_ij x x = squared_sizes x.
Proof.
  apply zsum_map_ext. intros i Hi. apply in_seq in Hi.
  rewrite (zsum_map_ext _ (fun j => if (j =? i)%nat
                                    then sq (label_count x i) else 0)).
  - apply (zsum_pick0 (fun _ => sq (label_count x i))).
    unfold true_cols, test_rows in *. lia.
  - intros j _. rewrite self_joint, Nat.eqb_sym.
    destruct (j =? i)%nat; reflexivity.
Qed.

(** The four Rand values of a field compared with itself: no pair is
    joined in one field and separated in the other. *)
Lemma rand_values_self :
  rand_values (table_of x x) =
  ((inject_Z (squared_sizes x - counted x) / 2)%Q,
   (inject_Z (squared_sizes x - squared_sizes x) / 2)%Q,
   (inject_Z (squared_sizes x - squared_sizes x) / 2)%Q,
   (inject_Z (squared_sizes x + counted x * counted x
              - squared_sizes x - squared_sizes x) / 2)%Q).
Proof.
  rewrite rand_values_table_of. cbv zeta.
  rewrite self_total, self_sum_p_ij, self_sum_a, self_sum_b. reflexivity.
Qed.










End SelfComparison.

Section AdjustedRandSelf.

Local Open Scope Q_scope.



End AdjustedRandSelf.





(** ** The threshold sweep *)

Section UniqueSorted.

Lemma insert_unique_increasing (x : nat) (l : list nat) :
  increasing l -> increasing (insert_unique x l).
Proof.
  induction l as [|z l IH]; cbn [insert_unique increasing In].
  - intros _. split; [intros y []|exact I].
  - intros [Hz Hl]. destruct (Nat.ltb_spec x z).
    + cbn [increasing In]. split; [|split; assumption].
      intros y [<-|Hy]; [assumption|]. specialize (Hz y Hy). lia.
    + destruct (Nat.eqb_spec x z); cbn [increasing];
        [split; assumption|].
      split; [|apply IH; exact Hl].
      intros y Hy. apply insert_unique_in in Hy.
      destruct Hy as [->|Hy]; [lia|auto].
Qed.

Lemma unique_increasing (l : list nat) : increasing (unique l).
Proof.
  induction l as [|x l IH]; [exact I|].
  apply insert_unique_increasing. exact IH.
Qed.

Lemma filter_all {A : Type} (p : A -> bool) (l : list A) :
  (forall x, In x l -> p x = true) -> filter p l = l.
Proof.
  induction l as [|x l IH]; intros H; [reflexivity|].
  cbn [filter]. rewrite (H x) by (left; reflexivity).
  rewrite IH by (intros; apply H; right; assumption). reflexivity.
Qed.

(** When 0 occurs, it is the first unique value and the others are the
    non-zero ones. *)
Lemma unique_tail_nonzero (l : list nat) :
  In 0 l ->
  tl (unique l) = filter (fun v => negb (v =? 0)) (unique l).
Proof.
  intros H0. apply unique_in in H0.
  pose proof (unique_increasing l) as Hinc.
  destruct (unique l) as [|u us]; [contradiction H0|].
  cbn [increasing] in Hinc. destruct Hinc as [Hu _].
  assert (u = 0).
  { destruct H0 as [->|H0]; [reflexivity|]. specialize (Hu 0 H0). lia. }
  subst u. cbn [tl filter Nat.eqb negb].
  symmetry. apply filter_all. intros v Hv. specialize (Hu v Hv).
  destruct (Nat.eqb_spec v 0); [lia|reflexivity].
Qed.

End UniqueSorted.

Lemma mapM_total {A B : Type} (f : A -> result B) (l : list A) :
  (forall x, In x l -> exists y, f x = Ok y) ->
  exists ys, mapM f l = Ok ys /\ length ys = length l.
Proof.
  induction l as [|x l IH]; intros H.
  - exists []. split; reflexivity.
  - destruct (H x) as [y Hy]; [left; reflexivity|].
    destruct IH as (ys & Hys & Hlen); [intros; apply H; right; assumption|].
    exists (y :: ys). cbn [mapM]. rewrite Hy, Hys. cbn [bind length].
    split; [reflexivity|congruence].
Qed.

Section ThresholdSweepProperties.

Variable label : ndarray bool -> ndarray nat * nat.
Variable float_index : list nat -> Z -> result (list nat).

(** The collaborator returns a label field of the shape of its mask. *)
Hypothesis label_shape :
  forall mask, shape (fst (label mask)) = shape mask /\
               wf (fst (label mask)) = wf mask.

Lemma sweep_point (im_true im_test : ndarray nat) (t : nat) :
  wf im_true = true -> wf im_test = true ->
  shape im_true = shape im_test ->
  size im_test <> 0 ->
  exists y,
    (let seg := fst (label (amap (fun x => x <? t) im_test)) in
     ri <- rand_index seg im_true ;;
     ari <- adj_rand_index seg im_true ;;
     Ok (ri, ari)) = Ok y.
Proof.
  intros Wt Ws Hshape Hne. cbv zeta.
  set (seg := fst (label (amap (fun x => x <? t) im_test))).
  destruct (label_shape (amap (fun x => x <? t) im_test)) as [Hs Hw].
  fold seg in Hs, Hw. rewrite amap_shape in Hs. rewrite amap_wf in Hw.
  assert (Hsz : size seg = size im_true).
  { apply shape_size; congruence. }
  assert (Hne' : size im_true <> 0).
  { rewrite (shape_size im_true im_test) by assumption. exact Hne. }
  unfold rand_index, adj_rand_index.
  rewrite contingency_table_table_of by assumption. cbn [bind].
  destruct (rand_values (table_of seg im_true)) as [[[a b] c] d].
  cbn [bind]. eexists. reflexivity.
Qed.

(** C10 (amended).  The candidate thresholds are the sorted unique values
    of the test map without the smallest one; these are exactly the
    non-zero unique values when the map contains 0.  Whenever [npoints]
    is absent or at least their number, all of them are used verbatim:
    the returned table has them as its first row and one column for each
    of them. *)
Theorem thresholds_used_verbatim
  (im_true im_test : ndarray nat) (npoints : option Z) :
  wf im_true = true -> wf im_test = true ->
  shape im_true = shape im_test ->
  let ts := tl (unique (ravel im_test)) in
  match npoints with
  | Some k => (Z.of_nat (length ts) <= k)%Z
  | None => True
  end ->
  (In 0 (ravel im_test) ->
   ts = filter (fun v => negb (v =? 0)) (unique (ravel im_test))) /\
  exists ris aris,
    compare_rand_by_threshold label float_index im_true im_test npoints =
    Ok [threshold_row ts; ris; aris] /\
    length ris = length ts /\ length aris = length ts.
Proof.
  intros Wt Ws Hshape ts Hnp. split; [apply unique_tail_nonzero|].
  unfold compare_rand_by_threshold, _assert_compatible.
  destruct (list_eq_dec Nat.eq_dec (shape im_true) (shape im_test));
    [|contradiction].
  cbn [bind]. fold ts.
  assert (Hbranch :
           (2 * match npoints with
                | Some k => k
                | None => Z.of_nat (length ts)
                end <? Z.of_nat (length ts))%Z = false).
  { apply Z.ltb_ge. destruct npoints; lia. }
  rewrite Hbranch. cbn [bind].
  destruct (mapM_total
              (fun t =>
                 let seg := fst (label (amap (fun x => x <? t) im_test)) in
                 ri <- rand_index seg im_true ;;
                 ari <- adj_rand_index seg im_true ;;
                 Ok (ri, ari)) ts) as (ys & Hys & Hlen).
  - intros t Ht. apply sweep_point; try assumption.
    intros Hz. unfold size in Hz. apply length_zero_iff_nil in Hz.
    unfold ts in Ht. rewrite Hz in Ht. exact Ht.
  - cbv zeta in Hys. rewrite Hys. cbn [bind].
    exists (map fst ys), (map snd ys).
    rewrite !length_map. auto.
Qed.

End ThresholdSweepProperties.

Lemma thresholds_used_verbatim_witness :
  exists ris aris,
    compare_rand_by_threshold one_component no_float_index
      (Arr1 [1; 1; 2; 2]) (Arr1 [0; 3; 3; 5]) (Some 2%Z) =
    Ok [threshold_row [3; 5]; ris; aris] /\
    length ris = 2 /\ length aris = 2.
Proof.
  apply (thresholds_used_verbatim one_component no_float_index
           (fun mask => conj (amap_shape _ mask) (amap_wf _ mask))
           (Arr1 [1; 1; 2; 2]) (Arr1 [0; 3; 3; 5]) (Some 2%Z));
    [reflexivity | reflexivity | reflexivity | simpl; lia].
Defined.

(** C10 (counterexample).  A test map without zeros loses its smallest
    value: for [[1, 2, 3]] the thresholds are [[2, 3]]. *)
Lemma thresholds_drop_smallest_value :
  ~ thresholds_are_nonzero_values one_component no_float_index
      (Arr1 [1; 1; 2]) (Arr1 [1; 2; 3]) None.
Proof.
  intros H. specialize (H _ eq_refl). vm_compute in H. discriminate.
Qed.

(** ** Variation of information *)

Section VariationOfInformation.

Local Open Scope R_scope.

Lemma vdiv_real (a b : R) : b <> 0 -> vdiv (Real a) (Real b) = Real (a / b).
Proof.
  intros Hb. unfold vdiv. destruct (Req_dec_T b 0); [contradiction|].
  reflexivity.
Qed.

Lemma vnonzero_real (a : R) : a <> 0 -> vnonzero (Real a) = true.
Proof.
  intros Ha. unfold vnonzero. destruct (Req_dec_T a 0); [contradiction|].
  reflexivity.
Qed.

Lemma vlog2_real (a : R) : 0 < a -> vlog2 (Real a) = Real (ln a / ln 2).
Proof.
  intros Ha. unfold vlog2. destruct (Rlt_dec 0 a); [|contradiction].
  reflexivity.
Qed.

Lemma log2_half : ln (1 / 2) / ln 2 = -1.
Proof.
  assert (H2 : 0 < ln 2) by (rewrite <- ln_1; apply ln_increasing; lra).
  replace (1 / 2) with (/ 2) by lra.
  rewrite ln_Rinv by lra. field. lra.
Qed.

Lemma split_vi_uniform_2x2 (im2 : ndarray nat) :
  compare_split_vi uniform_2x2 im2 = Ok (Real 1, Real 1).
Proof.
  unfold compare_split_vi, vi_tables, uniform_2x2.
  cbn [ravel concat app list_sum fold_right Nat.add amap map].
  assert (H4 : INR 4 <> 0) by (apply not_0_INR; discriminate).
  rewrite (vdiv_real (INR 1) (INR 4) H4).
  replace (INR 1 / INR 4) with (1 / 4) by (simpl; lra).
  cbn [asum_axis1 asum_axis0 bind map vsum fold_right vadd lift2 colsums
       ncols_of length seq nth].
  replace (1 / 4 + (1 / 4 + 0)) with (1 / 2) by lra.
  unfold nonzero. cbn [length seq combine filter snd].
  rewrite (vnonzero_real (1 / 2)) by lra.
  cbn [map fst vtake nth submatrix bind vi_hygx vi_hxgy].
  cbn [divide_rows divide_columns combine map fst snd length].
  rewrite (vdiv_real (1 / 4) (1 / 2)) by lra.
  replace (1 / 4 / (1 / 2)) with (1 / 2) by lra.
  unfold xlogx. cbn [map].
  rewrite (vnonzero_real (1 / 2)), (vlog2_real (1 / 2)), log2_half by lra.
  cbn [vmul lift2 vsum vadd fold_right colsums seq map nth repeat scatter
       set_nth combine fst snd vneg].
  do 2 f_equal; f_equal; lra.
Qed.

Lemma vi_uniform_2x2 (im2 : ndarray nat) :
  compare_vi uniform_2x2 im2 ones2 = Ok (Real 2).
Proof.
  unfold compare_vi. rewrite split_vi_uniform_2x2.
  cbn [bind dot2 ones2 fst snd vadd vmul lift2]. do 2 f_equal. lra.
Qed.

End VariationOfInformation.

(** A one-dimensional field has no axis 1 to sum over. *)
Lemma split_vi_one_dimensional (v : list nat) (im2 : ndarray nat) :
  compare_split_vi (Arr1 v) im2 = Raise AxisError.
Proof. reflexivity. Qed.

(** C1 (the code at the failing inputs).  A two-dimensional field is taken
    as a contingency table: comparing the uniform 2 x 2 field with itself
    gives [(1.0, 1.0)] and a variation of information of 2.0.  A
    one-dimensional field has no axis 1: the comparison raises. *)
Theorem self_comparison_vi_is_not_zero :
  compare_split_vi uniform_2x2 uniform_2x2 = Ok (Real 1%R, Real 1%R) /\
  compare_vi uniform_2x2 uniform_2x2 ones2 = Ok (Real 2%R) /\
  compare_split_vi scenario_true scenario_true = Raise AxisError /\
  compare_vi scenario_true scenario_true ones2 = Raise AxisError.
Proof.
  split; [apply split_vi_uniform_2x2|].
  split; [apply vi_uniform_2x2|].
  split; [apply split_vi_one_dimensional|].
  unfold compare_vi, scenario_true. rewrite split_vi_one_dimensional.
  reflexivity.
Qed.

(** C2.  [compare_split_vi] and [compare_vi] do not depend on their second
    argument: [vi_tables] takes its first argument as the contingency table
    and never reads the second. *)
Theorem split_vi_ignores_second_image
  (im1 im2 im2' : ndarray nat) (weights : vfloat * vfloat) :
  vi_tables im1 im2 = vi_tables im1 im2' /\
  compare_split_vi im1 im2 = compare_split_vi im1 im2' /\
  compare_vi im1 im2 weights = compare_vi im1 im2' weights.
Proof. repeat split. Qed.

(** ** The shape check at the entry points *)

(** The three entry points that call [_assert_compatible] refuse fields of
    different shapes before anything else. *)
Lemma checked_entry_points_refuse_mismatch
  (label : ndarray bool -> ndarray nat * nat)
  (float_index : list nat -> Z -> result (list nat))
  (im_true im_test : ndarray nat) (size_threshold : Q) (npoints : option Z) :
  shape im_true <> shape im_test ->
  compare_raw_edit_distance im_true im_test size_threshold
  = Raise ShapeMismatch /\
  compare_adapted_rand_error im_true im_test = Raise ShapeMismatch /\
  compare_rand_by_threshold label float_index im_true im_test npoints
  = Raise ShapeMismatch.
Proof.
  intros H.
  unfold compare_raw_edit_distance, compare_adapted_rand_error,
    compare_rand_by_threshold, _assert_compatible.
  destruct (list_eq_dec Nat.eq_dec (shape im_true) (shape im_test));
    [contradiction|].
  repeat split.
Qed.

(** C5 (the code at the failing input).  [compare_split_vi] and
    [compare_vi] do not check their arguments: given a 2 x 2 field and a
    field of three elements, which [_assert_compatible] refuses, they return
    a value. *)
Theorem vi_entry_points_skip_shape_check :
  _assert_compatible uniform_2x2 (Arr1 [1; 2; 3]) = Raise ShapeMismatch /\
  compare_split_vi uniform_2x2 (Arr1 [1; 2; 3]) = Ok (Real 1%R, Real 1%R) /\
  compare_vi uniform_2x2 (Arr1 [1; 2; 3]) ones2 = Ok (Real 2%R).
Proof.
  split; [reflexivity|].
  split; [apply split_vi_uniform_2x2 | apply vi_uniform_2x2].
Qed.

(** ** The maps of relabel_from_one *)

Section RoundTrip.

Lemma increasing_filter (p : nat -> bool) (l : list nat) :
  increasing l -> increasing (filter p l).
Proof.
  induction l as [|x l IH]; cbn [increasing filter]; [auto|].
  intros [Hx Hl]. destruct (p x); cbn [increasing]; [|auto].
  split; [|auto]. intros y Hy. apply filter_In in Hy. apply Hx, Hy.
Qed.

Lemma increasing_NoDup (l : list nat) : increasing l -> NoDup l.
Proof.
  induction l as [|x l IH]; cbn [increasing]; [constructor|].
  intros [Hx Hl]. constructor; [|auto].
  intros Hin. specialize (Hx x Hin). lia.
Qed.

(** An increasing list that fits in a range of its own length is that
    range. *)
Lemma increasing_range (l : list nat) (s : nat) :
  increasing l ->
  (forall y, In y l -> s <= y < s + length l) ->
  l = seq s (length l).
Proof.
  revert s. induction l as [|x l IH]; intros s Hinc Hr; [reflexivity|].
  cbn [increasing] in Hinc. destruct Hinc as [Hx Hl].
  cbn [length seq].
  assert (Htl : l = seq (S s) (length l)).
  { apply IH; [exact Hl|]. intros y Hy.
    specialize (Hx y Hy). pose proof (Hr x (or_introl eq_refl)).
    pose proof (Hr y (or_intror Hy)). cbn [length] in *. lia. }
  f_equal; [|exact Htl].
  pose proof (Hr x (or_introl eq_refl)) as Hx0.
  destruct l as [|y l']; cbn [length] in Hx0.
  - lia.
  - assert (Hy : y = S s).
    { cbn [length seq] in Htl. injection Htl. auto. }
    specialize (Hx y (or_introl eq_refl)). lia.
Qed.

Lemma set_nth_same {A : Type} (a : list A) (i : nat) (x d : A) :
  i < length a -> nth i (set_nth a i x) d = x.
Proof.
  revert i. induction a as [|y a IH]; intros [|i] H; cbn [length] in H;
    try lia; cbn [set_nth nth]; [reflexivity|].
  apply IH. lia.
Qed.

Lemma set_nth_other {A : Type} (a : list A) (i j : nat) (x d : A) :
  i <> j -> nth i (set_nth a j x) d = nth i a d.
Proof.
  revert i j. induction a as [|y a IH]; intros [|i] [|j] H;
    cbn [set_nth nth]; try reflexivity; try lia.
  apply IH. lia.
Qed.

Lemma scatter_other {A : Type} (idx : list nat) (vals a : list A) (i : nat)
  (d : A) :
  ~ In i idx -> nth i (scatter a idx vals) d = nth i a d.
Proof.
  revert vals a. induction idx as [|j idx IH]; intros [|x vals] a H;
    cbn [scatter]; try reflexivity.
  rewrite IH by (intros Hin; apply H; right; exact Hin).
  apply set_nth_other. intros ->. apply H. left. reflexivity.
Qed.

Lemma scatter_at {A : Type} (idx : list nat) (vals a : list A) (k : nat)
  (d : A) :
  NoDup idx -> length vals = length idx -> k < length idx ->
  (forall j, In j idx -> j < length a) ->
  nth (nth k idx 0) (scatter a idx vals) d = nth k vals d.
Proof.
  revert vals a k. induction idx as [|j idx IH]; intros [|x vals] a k Hnd Hlen Hk Hr;
    cbn [length] in *; try lia.
  inversion Hnd as [|? ? Hj Hnd']; subst.
  cbn [scatter]. destruct k as [|k]; cbn [nth].
  - rewrite scatter_other by exact Hj.
    apply set_nth_same. apply Hr. left. reflexivity.
  - apply IH; [exact Hnd' | lia | lia |].
    intros i Hi. rewrite set_nth_length. apply Hr. right. exact Hi.
Qed.

Lemma mapM_getitem_map (a : list nat) (f : nat -> nat) (l : list nat) :
  (forall v, In v l -> nth_error a (f v) = Some v) ->
  mapM (getitem a) (map f l) = Ok l.
Proof.
  induction l as [|v l IH]; intros H; [reflexivity|].
  cbn [map mapM]. unfold getitem at 1.
  rewrite (H v) by (left; reflexivity). cbn [bind].
  rewrite IH by (intros; apply H; right; assumption). reflexivity.
Qed.

Lemma take_amap (a : list nat) (f : nat -> nat) (x : ndarray nat) :
  (forall v, In v (ravel x) -> nth_error a (f v) = Some v) ->
  take a (amap f x) = Ok x.
Proof.
  destruct x as [l|m]; cbn [ravel amap take]; intros H.
  - rewrite mapM_getitem_map by exact H. reflexivity.
  - assert (E : mapM (mapM (getitem a)) (map (map f) m) = Ok m).
    { induction m as [|r m IH]; [reflexivity|].
      cbn [map mapM]. rewrite mapM_getitem_map.
      - cbn [bind]. rewrite IH; [reflexivity|].
        intros v Hv. apply H. cbn [concat]. apply in_or_app. right. exact Hv.
      - intros v Hv. apply H. cbn [concat]. apply in_or_app. left. exact Hv. }
    rewrite E. reflexivity.
Qed.

Lemma nth_error_seq0 (n v : nat) : v < n -> nth_error (seq 0 n) v = Some v.
Proof.
  intros H. rewrite (nth_error_nth' _ 0) by (rewrite length_seq; exact H).
  rewrite seq_nth by exact H. reflexivity.
Qed.

(** The maps in terms of the sorted non-zero labels. *)
Lemma zero_then_nonzero (l : list nat) :
  increasing l -> In 0 l -> l = 0 :: filter (fun x => negb (x =? 0)) l.
Proof.
  destruct l as [|u us]; [contradiction|].
  cbn [increasing]. intros [Hu _] H0.
  assert (u = 0).
  { destruct H0 as [->|H0]; [reflexivity|]. specialize (Hu 0 H0). lia. }
  subst u. cbn [filter Nat.eqb negb]. f_equal.
  symmetry. apply filter_all. intros v Hv. specialize (Hu v Hv).
  destruct (Nat.eqb_spec v 0); [lia|reflexivity].
Qed.

Lemma existsb_zero (l : list nat) :
  existsb (fun x => x =? 0) l = true <-> In 0 l.
Proof.
  rewrite existsb_exists. split.
  - intros (v & Hv & E). apply Nat.eqb_eq in E. subst. exact Hv.
  - intros H. exists 0. auto.
Qed.

Lemma amap_id {A : Type} (x : ndarray A) : amap (fun v => v) x = x.
Proof.
  destruct x as [l|m]; cbn [amap]; f_equal; [apply map_id|].
  induction m as [|r m IH]; [reflexivity|].
  cbn [map]. rewrite map_id, IH. reflexivity.
Qed.

Lemma amax_nonempty (l : list nat) : l <> [] -> amax l = Ok (list_max l).
Proof. destruct l; [congruence|reflexivity]. Qed.

(** X5.  For every non-empty field that contains a 0 or is not already
    dense, indexing the forward map with the field gives the relabelled field and
    indexing the inverse map with the relabelled field gives the field
    back. *)
Theorem relabel_round_trip (x : ndarray nat) :
  size x <> 0 ->
  In 0 (ravel x) \/
  list_max (unique (ravel x))
  <> length (filter (fun v => negb (v =? 0)) (unique (ravel x))) ->
  exists relabeled forward_map inverse_map,
    relabel_from_one x = Ok (relabeled, forward_map, inverse_map) /\
    take forward_map x = Ok relabeled /\
    take inverse_map relabeled = Ok x.
Proof.
  intros Hne Hcase. unfold relabel_from_one.
  set (labels := unique (ravel x)).
  set (labels0 := filter (fun v => negb (v =? 0)) labels).
  assert (Hx : ravel x <> [])
    by (intros E; apply Hne; unfold size; rewrite E; reflexivity).
  pose proof (unique_nonempty _ Hx) as Hu. fold labels in Hu.
  pose proof (unique_increasing (ravel x)) as Hinc. fold labels in Hinc.
  assert (Hinc0 : increasing labels0) by (apply increasing_filter; exact Hinc).
  rewrite (amax_nonempty labels Hu). cbn [bind].
  destruct (Nat.eqb_spec (list_max labels) (length labels0)) as [Hfast|Hslow].
  - (* already dense: the field contains 0 *)
    destruct Hcase as [H0|Hn]; [|contradiction Hn].
    assert (H0' : In 0 labels) by (apply unique_in; exact H0).
    pose proof (zero_then_nonzero labels Hinc H0') as Hl. fold labels0 in Hl.
    assert (Hseq : labels0 = seq 1 (length labels0)).
    { apply increasing_range; [exact Hinc0|]. intros y Hy.
      apply filter_In in Hy. destruct Hy as [Hy Hnz].
      apply list_max_ge in Hy.
      destruct (Nat.eqb_spec y 0); [discriminate|]. lia. }
    assert (Hlab : labels = seq 0 (S (length labels0))).
    { rewrite Hl at 1. cbn [seq]. rewrite <- Hseq. reflexivity. }
    exists x, labels, labels. split; [reflexivity|].
    assert (Hid : take labels x = Ok x).
    { rewrite <- (take_amap labels (fun v => v) x).
      - rewrite amap_id. reflexivity.
      - intros v Hv. rewrite Hlab. apply nth_error_seq0.
        apply unique_max_ge in Hv. fold labels in Hv. lia. }
    split; exact Hid.
  - (* the general path *)
    set (m := list_max labels) in *.
    set (fw := scatter (repeat 0 (m + 1)) labels0 (seq 1 (length labels0))).
    assert (Hinv : (if negb (existsb (fun v => v =? 0) labels)
                    then 0 :: labels else labels) = 0 :: labels0).
    { destruct (existsb (fun v => v =? 0) labels) eqn:E; cbn [negb].
      - apply zero_then_nonzero; [exact Hinc|]. apply existsb_zero. exact E.
      - f_equal. symmetry. apply filter_all. intros v Hv.
        destruct (Nat.eqb_spec v 0) as [->|]; [|reflexivity].
        apply existsb_zero in Hv. congruence. }
    rewrite Hinv.
    assert (Htake : take fw x = Ok (amap (fun v => nth v fw 0) x)).
    { apply take_in_range. intros v Hv. unfold fw.
      rewrite scatter_length, repeat_length.
      apply unique_max_ge in Hv. fold labels in Hv. fold m in Hv. lia. }
    rewrite Htake. cbn [bind].
    do 3 eexists. split; [reflexivity|]. split; [exact Htake|].
    apply take_amap. intros v Hv.
    assert (Hvl : In v labels) by (apply unique_in; exact Hv).
    destruct (Nat.eq_dec v 0) as [->|Hnz].
    + unfold fw. rewrite scatter_other.
      * rewrite nth_repeat. reflexivity.
      * intros Hin. apply filter_In in Hin. destruct Hin as [_ Hin].
        discriminate Hin.
    + assert (Hv0 : In v labels0).
      { apply filter_In. split; [exact Hvl|].
        destruct (Nat.eqb_spec v 0); [contradiction|reflexivity]. }
      destruct (In_nth _ _ 0 Hv0) as (k & Hk & Hnth).
      unfold fw. rewrite <- Hnth at 1.
      rewrite (scatter_at labels0 (seq 1 (length labels0))).
      * rewrite seq_nth by exact Hk. cbn [Nat.add nth_error].
        rewrite (nth_error_nth' _ 0) by exact Hk. rewrite Hnth. reflexivity.
      * apply increasing_NoDup. exact Hinc0.
      * apply length_seq.
      * exact Hk.
      * intros j Hj. rewrite repeat_length. apply filter_In in Hj.
        destruct Hj as [Hj _]. apply list_max_ge in Hj. fold m in Hj. lia.
Qed.

End RoundTrip.

(** C7 (the code at the failing input).  The field [[1, 2]] is dense and
    has no zero: the fast path returns the unique values [[1, 2]] as both
    maps, and indexing either map with the field runs out of range. *)
Theorem dense_field_without_zero_has_no_round_trip :
  relabel_from_one (Arr1 [1; 2]) = Ok (Arr1 [1; 2], [1; 2], [1; 2]) /\
  take [1; 2] (Arr1 [1; 2]) = Raise IndexError /\
  ~ exists relabeled forward_map inverse_map,
      relabel_from_one (Arr1 [1; 2])
      = Ok (relabeled, forward_map, inverse_map) /\
      take forward_map (Arr1 [1; 2]) = Ok relabeled /\
      take inverse_map relabeled = Ok (Arr1 [1; 2]).
Proof.
  split; [reflexivity|]. split; [reflexivity|].
  intros (r & fw & inv & H & Hfw & _).
  injection H as <- <- <-. discriminate Hfw.
Qed.

(** ** What relabel_from_one computes *)

Section RelabelRanks.

Lemma NoDup_same_length (l1 l2 : list nat) :
  NoDup l1 -> NoDup l2 -> (forall v, In v l1 <-> In v l2) ->
  length l1 = length l2.
Proof.
  intros H1 H2 H. apply Permutation_length.
  apply NoDup_Permutation; assumption.
Qed.

(** The elements of an increasing list that are not larger than its
    element of index [k] are the [k + 1] first ones. *)
Lemma count_le_nth (l : list nat) (k : nat) :
  increasing l -> k < length l ->
  length (filter (fun u => u <=? nth k l 0) l) = S k.
Proof.
  revert k. induction l as [|a t IH]; intros k Hinc Hk; cbn [length] in Hk;
    [lia|].
  cbn [increasing] in Hinc. destruct Hinc as [Ha Ht].
  destruct k as [|k]; cbn [nth filter].
  - rewrite Nat.leb_refl. cbn [length]. f_equal.
    apply length_zero_iff_nil.
    destruct (filter (fun u => u <=? a) t) as [|y ys] eqn:E; [reflexivity|].
    assert (Hy : In y (filter (fun u => u <=? a) t))
      by (rewrite E; left; reflexivity).
    apply filter_In in Hy. destruct Hy as [Hy Hle].
    apply Nat.leb_le in Hle. specialize (Ha y Hy). lia.
  - assert (Hlt : a < nth k t 0) by (apply Ha, nth_In; lia).
    replace (a <=? nth k t 0) with true
      by (symmetry; apply Nat.leb_le; lia).
    cbn [length]. f_equal. apply IH; [exact Ht | lia].
Qed.

Lemma count_le_below (l : list nat) (v : nat) :
  (forall u, In u l -> v < u) ->
  length (filter (fun u => u <=? v) l) = 0.
Proof.
  intros H. apply length_zero_iff_nil.
  destruct (filter (fun u => u <=? v) l) as [|y ys] eqn:E; [reflexivity|].
  assert (Hy : In y (filter (fun u => u <=? v) l))
    by (rewrite E; left; reflexivity).
  apply filter_In in Hy. destruct Hy as [Hy Hle].
  apply Nat.leb_le in Hle. specialize (H y Hy). lia.
Qed.

Variable x : ndarray nat.

Let labels := unique (ravel x).
Let labels0 := filter (fun v => negb (v =? 0)) labels.

Lemma labels0_increasing : increasing labels0.
Proof. apply increasing_filter, unique_increasing. Qed.

Lemma labels0_in (v : nat) : In v labels0 <-> In v (ravel x) /\ v <> 0.
Proof.
  unfold labels0, labels. rewrite filter_In, unique_in.
  destruct (Nat.eqb_spec v 0); cbn [negb]; intuition congruence.
Qed.

(** The rank of a label, read on the sorted non-zero labels. *)
Lemma label_rank_sorted (v : nat) :
  label_rank x v = length (filter (fun u => u <=? v) labels0).
Proof.
  unfold label_rank, nonzero_labels_upto. apply NoDup_same_length.
  - apply NoDup_nodup.
  - apply increasing_NoDup, increasing_filter, labels0_increasing.
  - intros u. rewrite nodup_In, !filter_In, labels0_in.
    destruct (Nat.eqb_spec u 0); cbn [negb andb]; intuition congruence.
Qed.

Lemma n_segments_sorted : n_segments x = length labels0.
Proof.
  unfold n_segments. apply NoDup_same_length.
  - apply NoDup_nodup.
  - apply increasing_NoDup, labels0_increasing.
  - intros u. rewrite nodup_In, filter_In, labels0_in.
    destruct (Nat.eqb_spec u 0); cbn [negb]; intuition congruence.
Qed.

Lemma label_rank_zero : label_rank x 0 = 0.
Proof.
  rewrite label_rank_sorted. apply count_le_below.
  intros u Hu. apply labels0_in in Hu. lia.
Qed.

Lemma label_rank_nth (k : nat) :
  k < length labels0 -> label_rank x (nth k labels0 0) = S k.
Proof.
  intros Hk. rewrite label_rank_sorted.
  apply count_le_nth; [apply labels0_increasing | exact Hk].
Qed.

Lemma label_rank_le (v : nat) : label_rank x v <= n_segments x.
Proof.
  rewrite label_rank_sorted, n_segments_sorted. apply filter_length_le.
Qed.

(** In the dense case the sorted non-zero labels are [1..K]. *)
Lemma dense_labels0 :
  list_max labels = length labels0 -> labels0 = seq 1 (length labels0).
Proof.
  intros Hfast. apply increasing_range; [apply labels0_increasing|].
  intros y Hy. pose proof Hy as Hy'. apply labels0_in in Hy'.
  apply filter_In in Hy. destruct Hy as [Hy _].
  apply list_max_ge in Hy. lia.
Qed.

Lemma amap_ext_in {A B : Type} (f g : A -> B) (a : ndarray A) :
  (forall v, In v (ravel a) -> f v = g v) -> amap f a = amap g a.
Proof.
  destruct a as [l|m]; cbn [ravel amap]; intros H; f_equal.
  - apply map_ext_in. exact H.
  - apply map_ext_in. intros r Hr. apply map_ext_in. intros v Hv.
    apply H. apply in_concat. exists r. auto.
Qed.

(** Every label is replaced by its rank among the distinct non-zero labels
    of the field. *)
Lemma relabel_ranks (r : ndarray nat) (fw inv : list nat) :
  relabel_from_one x = Ok (r, fw, inv) ->
  r = amap (label_rank x) x.
Proof.
  unfold relabel_from_one. fold labels. fold labels0.
  destruct (amax labels) as [m|e] eqn:Em; [|discriminate].
  cbn [bind].
  assert (Hm : m = list_max labels).
  { unfold amax in Em. destruct labels; [discriminate|]. congruence. }
  subst m.
  destruct (Nat.eqb_spec (list_max labels) (length labels0)) as [Hfast|Hslow].
  - intros H. injection H as <- _ _.
    rewrite <- (amap_id x) at 1. apply amap_ext_in. intros v Hv.
    destruct (Nat.eq_dec v 0) as [->|Hnz];
      [symmetry; apply label_rank_zero|].
    assert (Hv0 : In v labels0) by (apply labels0_in; auto).
    destruct (In_nth _ _ 0 Hv0) as (k & Hk & Hnth).
    rewrite <- Hnth at 2. rewrite label_rank_nth by exact Hk.
    rewrite (dense_labels0 Hfast) in Hnth.
    rewrite seq_nth in Hnth by exact Hk. lia.
  - set (fwd := scatter (repeat 0 (list_max labels + 1)) labels0
                        (seq 1 (length labels0))).
    rewrite take_in_range.
    + cbn [bind]. intros H. injection H as <- _ _.
      apply amap_ext_in. intros v Hv.
      destruct (Nat.eq_dec v 0) as [->|Hnz].
      * rewrite label_rank_zero. unfold fwd. rewrite scatter_other.
        -- apply nth_repeat.
        -- intros Hin. apply labels0_in in Hin. lia.
      * assert (Hv0 : In v labels0) by (apply labels0_in; auto).
        destruct (In_nth _ _ 0 Hv0) as (k & Hk & Hnth).
        rewrite <- Hnth. rewrite label_rank_nth by exact Hk.
        unfold fwd. rewrite (scatter_at labels0 (seq 1 (length labels0))).
        -- rewrite seq_nth by exact Hk. reflexivity.
        -- apply increasing_NoDup, labels0_increasing.
        -- apply length_seq.
        -- exact Hk.
        -- intros j Hj. rewrite repeat_length. apply filter_In in Hj.
           destruct Hj as [Hj _]. apply list_max_ge in Hj. lia.
    + intros v Hv. unfold fwd. rewrite scatter_length, repeat_length.
      apply unique_max_ge in Hv. fold labels in Hv. lia.
Qed.

Lemma increasing_nth_le (l : list nat) (k k' : nat) :
  increasing l -> k <= k' -> k' < length l -> nth k l 0 <= nth k' l 0.
Proof.
  revert k k'. induction l as [|a t IH]; intros k k' Hinc Hle Hlen;
    cbn [length] in Hlen; [lia|].
  cbn [increasing] in Hinc. destruct Hinc as [Ha Ht].
  destruct k as [|k], k' as [|k']; cbn [nth]; try lia.
  - assert (a < nth k' t 0) by (apply Ha, nth_In; lia). lia.
  - apply IH; [exact Ht | lia | lia].
Qed.

Lemma label_rank_pos (v : nat) :
  In v (ravel x) -> v <> 0 -> 1 <= label_rank x v.
Proof.
  intros Hv Hnz.
  assert (Hv0 : In v labels0) by (apply labels0_in; auto).
  destruct (In_nth _ _ 0 Hv0) as (k & Hk & Hnth).
  rewrite <- Hnth, label_rank_nth by exact Hk. lia.
Qed.

(** The rank is strictly increasing on the labels of the field. *)
Lemma label_rank_lt (u v : nat) :
  In u (ravel x) -> In v (ravel x) ->
  (u < v <-> label_rank x u < label_rank x v).
Proof.
  intros Hu Hv.
  assert (Hmono : forall a b, In a (ravel x) -> In b (ravel x) ->
                              a <= b -> label_rank x a <= label_rank x b).
  { intros a b Ha Hb Hab.
    destruct (Nat.eq_dec a 0) as [->|Ha0]; [rewrite label_rank_zero; lia|].
    assert (Hb0 : b <> 0) by lia.
    assert (Ia : In a labels0) by (apply labels0_in; auto).
    assert (Ib : In b labels0) by (apply labels0_in; auto).
    destruct (In_nth _ _ 0 Ia) as (ka & Hka & Ea).
    destruct (In_nth _ _ 0 Ib) as (kb & Hkb & Eb).
    rewrite <- Ea, <- Eb, !label_rank_nth by assumption.
    destruct (Nat.le_gt_cases ka kb) as [Hk|Hk]; [lia|].
    pose proof (increasing_nth_le labels0 kb ka labels0_increasing) as Hn.
    assert (ka = kb); [|lia].
    assert (Hab' : nth ka labels0 0 = nth kb labels0 0)
      by (specialize (Hn ltac:(lia) Hka); lia).
    apply (proj1 (NoDup_nth labels0 0)
                 (increasing_NoDup _ labels0_increasing)); assumption. }
  assert (Hinj : label_rank x u = label_rank x v -> u = v).
  { intros E.
    destruct (Nat.eq_dec u 0) as [->|Hu0].
    - rewrite label_rank_zero in E.
      destruct (Nat.eq_dec v 0) as [->|Hv0]; [reflexivity|].
      pose proof (label_rank_pos v Hv Hv0). lia.
    - destruct (Nat.eq_dec v 0) as [->|Hv0].
      + rewrite label_rank_zero in E.
        pose proof (label_rank_pos u Hu Hu0). lia.
      + assert (Iu : In u labels0) by (apply labels0_in; auto).
        assert (Iv : In v labels0) by (apply labels0_in; auto).
        destruct (In_nth _ _ 0 Iu) as (ku & Hku & Eu).
        destruct (In_nth _ _ 0 Iv) as (kv & Hkv & Ev).
        rewrite <- Eu, <- Ev, !label_rank_nth in E by assumption.
        rewrite <- Eu, <- Ev. congruence. }
  split.
  - intros Hlt. pose proof (Hmono u v Hu Hv ltac:(lia)) as Hle.
    destruct (Nat.eq_dec (label_rank x u) (label_rank x v)) as [E|E];
      [apply Hinj in E; lia | lia].
  - intros Hlt. destruct (Nat.le_gt_cases v u) as [Hle|Hgt]; [|exact Hgt].
    pose proof (Hmono v u Hv Hu Hle). lia.
Qed.

(** The values of the relabelled field. *)
Lemma ranks_of_field (i : nat) :
  In i (map (label_rank x) (ravel x)) <->
  (i = 0 /\ In 0 (ravel x)) \/ (1 <= i <= n_segments x).
Proof.
  rewrite in_map_iff. split.
  - intros (v & <- & Hv). destruct (Nat.eq_dec v 0) as [->|Hnz].
    + left. split; [apply label_rank_zero | exact Hv].
    + right. split; [apply label_rank_pos; assumption | apply label_rank_le].
  - intros [[-> H0]|[H1 HK]].
    + exists 0. split; [apply label_rank_zero | exact H0].
    + rewrite n_segments_sorted in HK.
      exists (nth (i - 1) labels0 0). split.
      * rewrite label_rank_nth by lia. lia.
      * apply labels0_in. apply nth_In. lia.
Qed.

End RelabelRanks.

(** X2.  The relabelled field keeps the zeros and the order of the labels:
    a position is 0 exactly when it was 0, and of two positions the one with
    the smaller label gets the smaller new label (so equal labels stay equal
    and different labels stay different). *)
Theorem relabel_from_one_keeps_order
  (x r : ndarray nat) (fw inv : list nat) :
  relabel_from_one x = Ok (r, fw, inv) ->
  exists f,
    r = amap f x /\ f 0 = 0 /\
    forall u v, In u (ravel x) -> In v (ravel x) -> (u < v <-> f u < f v).
Proof.
  intros H. exists (label_rank x). split; [|split].
  - eapply relabel_ranks. exact H.
  - apply label_rank_zero.
  - apply label_rank_lt.
Qed.

Lemma relabel_dense (x r : ndarray nat) (fw inv : list nat) :
  relabel_from_one x = Ok (r, fw, inv) ->
  forall i, In i (ravel r) <->
            (i = 0 /\ In 0 (ravel x)) \/ (1 <= i <= n_segments x).
Proof.
  intros H i. rewrite (relabel_ranks x r fw inv H), amap_ravel.
  apply ranks_of_field.
Qed.

Lemma relabel_from_one_nonempty (x r : ndarray nat) (fw inv : list nat) :
  relabel_from_one x = Ok (r, fw, inv) -> ravel x <> [].
Proof.
  unfold relabel_from_one. intros H E. rewrite E in H. discriminate H.
Qed.

(** X4.  Relabelling is idempotent: the relabelled field is already dense,
    so relabelling it again returns it unchanged. *)
Theorem relabel_from_one_idempotent (x r : ndarray nat) (fw inv : list nat) :
  relabel_from_one x = Ok (r, fw, inv) ->
  exists fw' inv', relabel_from_one r = Ok (r, fw', inv').
Proof.
  intros H. pose proof (relabel_dense x r fw inv H) as Hd.
  pose proof (relabel_from_one_nonempty x r fw inv H) as Hx.
  assert (Hr : ravel r <> []).
  { rewrite (relabel_ranks x r fw inv H), amap_ravel.
    destruct (ravel x); [congruence | discriminate]. }
  unfold relabel_from_one.
  set (labels := unique (ravel r)).
  set (labels0 := filter (fun v => negb (v =? 0)) labels).
  rewrite (amax_nonempty labels (unique_nonempty _ Hr)). cbn [bind].
  assert (Hin0 : forall v, In v labels0 <-> 1 <= v <= n_segments x).
  { intros v. unfold labels0, labels. rewrite filter_In, unique_in, Hd.
    destruct (Nat.eqb_spec v 0); cbn [negb]; intuition (try congruence; lia). }
  assert (Hlen : length labels0 = n_segments x).
  { transitivity (length (seq 1 (n_segments x))); [|apply length_seq].
    apply NoDup_same_length.
    - apply increasing_NoDup, increasing_filter, unique_increasing.
    - apply seq_NoDup.
    - intros v. rewrite Hin0, in_seq. lia. }
  assert (Hmax : list_max labels = n_segments x).
  { apply Nat.le_antisymm.
    - apply list_max_le. apply Forall_forall. intros v Hv.
      unfold labels in Hv. apply (proj1 (unique_in _ _)) in Hv.
      apply (proj1 (Hd v)) in Hv. lia.
    - destruct (n_segments x) as [|k] eqn:EK; [lia|].
      apply list_max_ge. unfold labels. apply (proj2 (unique_in _ _)).
      apply (proj2 (Hd (S k))). lia. }
  replace (list_max labels =? length labels0) with true
    by (symmetry; apply Nat.eqb_eq; lia).
  eauto.
Qed.

(** X6.  An empty field has no maximum: [relabel_from_one] raises. *)
Theorem relabel_from_one_empty (x : ndarray nat) :
  size x = 0 -> relabel_from_one x = Raise ValueError.
Proof.
  unfold size. intros H. apply length_zero_iff_nil in H.
  unfold relabel_from_one. rewrite H. reflexivity.
Qed.

(** ** Cells, shape and errors of the contingency table *)

Section TableCells.

Local Open Scope Z_scope.

Lemma joint_count_positions (ps : list (nat * nat)) (i j : nat) :
  joint_count ps i j =
  if ((i =? 0) || (j =? 0))%nat then 0
  else Z.of_nat (length (filter (fun p => (fst p =? i) && (snd p =? j))%nat
                                ps)).
Proof.
  induction ps as [|[a b] ps IH].
  - cbn. destruct ((i =? 0) || (j =? 0))%nat; reflexivity.
  - rewrite joint_count_cons, IH. unfold weight. cbn [fst snd filter].
    destruct (Nat.eqb_spec a i) as [->|Hai], (Nat.eqb_spec b j) as [->|Hbj];
      cbn [andb]; try (destruct ((i =? 0) || (j =? 0))%nat; lia).
    destruct ((i =? 0) || (j =? 0))%nat; cbn [length]; lia.
Qed.

Lemma joint_count_swap (l1 l2 : list nat) (i j : nat) :
  joint_count (combine l1 l2) i j = joint_count (combine l2 l1) j i.
Proof.
  revert l2. induction l1 as [|a l1 IH]; intros [|b l2]; try reflexivity.
  cbn [combine]. rewrite !joint_count_cons, IH. unfold weight. cbn [fst snd].
  rewrite (andb_comm (a =? i)%nat), (orb_comm (a =? 0)%nat). reflexivity.
Qed.

End TableCells.

(** X7.  The docstring of [contingency_table]: the table has one row per
    test label and one column per true label (0 included), and [cont[i, j]]
    is the number of positions labelled [i] in [im_test] and [j] in
    [im_true], except that row 0 and column 0 stay empty. *)
Theorem contingency_table_cells
  (im_true im_test : ndarray nat) (cont : csr) (i j : nat) :
  contingency_table im_true im_test = Ok cont ->
  i <= list_max (ravel im_test) -> j <= list_max (ravel im_true) ->
  csr_nrows cont = S (list_max (ravel im_test)) /\
  csr_ncols cont = S (list_max (ravel im_true)) /\
  csr_get cont i j =
  if (i =? 0) || (j =? 0) then 0%Z
  else Z.of_nat (positions_with im_true im_test i j).
Proof.
  intros H Hi Hj. apply contingency_table_inv in H. subst cont.
  split; [|split].
  - unfold csr_nrows, table_of. cbn [csr_rows].
    rewrite length_map, length_seq. reflexivity.
  - reflexivity.
  - unfold table_of. cbv zeta. rewrite table_get.
    replace (i <? S (list_max (ravel im_test))) with true
      by (symmetry; apply Nat.ltb_lt; lia).
    replace (j <? S (list_max (ravel im_true))) with true
      by (symmetry; apply Nat.ltb_lt; lia).
    cbn [andb]. apply joint_count_positions.
Qed.

Lemma contingency_table_cells_witness :
  csr_nrows (table_of scenario_true scenario_test) = 4 /\
  csr_ncols (table_of scenario_true scenario_test) = 4 /\
  csr_get (table_of scenario_true scenario_test) 1 2 = 1%Z.
Proof.
  apply (contingency_table_cells scenario_true scenario_test
           (table_of scenario_true scenario_test) 1 2);
    [reflexivity | vm_compute; lia | vm_compute; lia].
Defined.

(** X8.  Swapping the two fields transposes the table. *)
Theorem contingency_table_transpose
  (im1 im2 : ndarray nat) (c12 : csr) :
  contingency_table im1 im2 = Ok c12 ->
  exists c21,
    contingency_table im2 im1 = Ok c21 /\
    csr_nrows c21 = csr_ncols c12 /\ csr_ncols c21 = csr_nrows c12 /\
    forall i j, csr_get c21 j i = csr_get c12 i j.
Proof.
  intros H. destruct (contingency_table_size _ _ _ H) as [Hsz Hne].
  apply contingency_table_inv in H. subst c12.
  exists (table_of im2 im1). split; [|split; [|split]].
  - apply contingency_table_table_of; lia.
  - unfold csr_nrows, table_of. cbn [csr_rows csr_ncols].
    rewrite length_map, length_seq. reflexivity.
  - unfold csr_nrows, table_of. cbn [csr_rows csr_ncols].
    rewrite length_map, length_seq. reflexivity.
  - intros i j. unfold table_of. cbv zeta. rewrite !table_get.
    rewrite andb_comm. unfold label_pairs.
    rewrite joint_count_swap. reflexivity.
Qed.

Lemma contingency_table_transpose_witness :
  exists c21,
    contingency_table scenario_test scenario_true = Ok c21 /\
    csr_nrows c21 = csr_ncols (table_of scenario_true scenario_test) /\
    csr_ncols c21 = csr_nrows (table_of scenario_true scenario_test) /\
    forall i j,
      csr_get c21 j i = csr_get (table_of scenario_true scenario_test) i j.
Proof.
  apply (contingency_table_transpose scenario_true scenario_test).
  reflexivity.
Defined.

(** X9.  Fields of different sizes are refused when the second mask is
    applied, before any table is built. *)
Theorem contingency_table_size_mismatch (im_true im_test : ndarray nat) :
  size im_true <> size im_test ->
  contingency_table im_true im_test = Raise IndexError.
Proof.
  unfold size, contingency_table. intros H.
  rewrite mask_set_repeat. cbn [bind].
  unfold mask_set at 1. rewrite !length_map.
  destruct (Nat.eqb_spec (length (ravel im_test)) (length (ravel im_true)));
    [congruence | reflexivity].
Qed.

Lemma contingency_table_size_mismatch_witness :
  contingency_table (Arr1 [1; 2]) (Arr1 [1; 2; 3]) = Raise IndexError.
Proof.
  apply (contingency_table_size_mismatch (Arr1 [1; 2]) (Arr1 [1; 2; 3])).
  vm_compute. lia.
Defined.

(** X10.  Two empty fields give no index from which to infer the shape of
    the table: [coo_matrix] raises. *)
Theorem contingency_table_empty (im_true im_test : ndarray nat) :
  size im_true = 0 -> size im_test = 0 ->
  contingency_table im_true im_test = Raise ValueError.
Proof.
  unfold size. intros H1 H2.
  apply length_zero_iff_nil in H1. apply length_zero_iff_nil in H2.
  unfold contingency_table. rewrite H1, H2. reflexivity.
Qed.

Lemma contingency_table_empty_witness :
  contingency_table (Arr1 []) (Arr2 []) = Raise ValueError.
Proof.
  apply (contingency_table_empty (Arr1 []) (Arr2 [])); reflexivity.
Defined.

(** ** The Rand index *)

Section RandIndexFacts.

Lemma halves_sum (z1 z2 z3 z4 : Z) :
  (inject_Z z1 / 2 + inject_Z z2 / 2 + inject_Z z3 / 2 + inject_Z z4 / 2
   == inject_Z (z1 + z2 + z3 + z4) / 2)%Q.
Proof. rewrite !inject_Z_plus. field. Qed.

Lemma half_zero (z : Z) : (inject_Z z / 2 == 0)%Q <-> z = 0%Z.
Proof.
  unfold Qeq, Qdiv, Qmult, Qinv, inject_Z. cbn. split; intros H; lia.
Qed.


Lemma both_nonzero_self (x : ndarray nat) :
  both_nonzero x x = nonzero_positions x.
Proof.
  unfold both_nonzero, nonzero_positions, label_pairs.
  induction (ravel x) as [|a l IH]; [reflexivity|].
  cbn [combine filter fst snd]. rewrite andb_diag.
  destruct (negb (a =? 0)); cbn [length]; rewrite IH; reflexivity.
Qed.

(** The number of counted positions, as the code sums it. *)
Lemma table_of_counted (im1 im2 : ndarray nat) :
  zsum (map (b_i im1 im2) (seq 0 (test_rows im2))) =
  Z.of_nat (both_nonzero im1 im2).
Proof. rewrite <- table_of_total. apply table_of_sum. Qed.

Lemma sum_p_ij_swap (im1 im2 : ndarray nat) :
  sum_p_ij im1 im2 = sum_p_ij im2 im1.
Proof.
  unfold sum_p_ij. rewrite zsum_exchange.
  change (true_cols im1) with (test_rows im1).
  change (true_cols im2) with (test_rows im2).
  apply zsum_map_ext. intros i _. apply zsum_map_ext. intros j _.
  unfold label_pairs. rewrite joint_count_swap. reflexivity.
Qed.

Lemma sum_a_swap (im1 im2 : ndarray nat) : sum_a im1 im2 = sum_b im2 im1.
Proof.
  unfold sum_a, sum_b. change (true_cols im1) with (test_rows im1).
  apply zsum_map_ext. intros j _. f_equal.
  unfold a_i, b_i, col_total, row_total.
  change (true_cols im2) with (test_rows im2).
  apply zsum_map_ext. intros i _.
  unfold label_pairs. apply joint_count_swap.
Qed.

Lemma fdiv_same (n1 d1 n2 d2 : Q) :
  (n1 == n2)%Q -> (d1 == d2)%Q ->
  fsame (fdiv (Finite n1) (Finite d1)) (fdiv (Finite n2) (Finite d2)).
Proof.
  intros Hn Hd. unfold fdiv.
  destruct (Qeq_bool d1 0) eqn:E1, (Qeq_bool d2 0) eqn:E2; cbn [fsame].
  - exact I.
  - apply Qeq_bool_iff in E1. apply Qeq_bool_neq in E2.
    apply E2. rewrite <- Hd. exact E1.
  - apply Qeq_bool_iff in E2. apply Qeq_bool_neq in E1.
    apply E1. rewrite Hd. exact E2.
  - rewrite Hn, Hd. reflexivity.
Qed.

End RandIndexFacts.

(** X12.  The four Rand values add up to the number of pairs of counted
    positions, n(n-1)/2, so [rand_index] is [nan] exactly when fewer than
    two positions are non-zero in both fields. *)
Theorem rand_index_nan_iff (im1 im2 : ndarray nat) :
  size im1 = size im2 -> size im2 <> 0 ->
  exists v,
    rand_index im1 im2 = Ok v /\
    (v = NonFinite <-> both_nonzero im1 im2 < 2).
Proof.
  intros Hsz Hne. unfold rand_index.
  rewrite contingency_table_table_of by assumption. cbn [bind].
  rewrite rand_values_table_of. cbv zeta. rewrite table_of_counted.
  set (n := Z.of_nat (both_nonzero im1 im2)).
  eexists. split; [reflexivity|].
  unfold fdiv.
  match goal with |- context [Qeq_bool ?den 0] =>
    assert (Hden : (den == inject_Z (n * n - n) / 2)%Q)
      by (rewrite halves_sum; apply Qdiv_comp; [|reflexivity];
          apply inject_Z_injective; lia);
    destruct (Qeq_bool den 0) eqn:E end.
  - apply Qeq_bool_iff in E. rewrite Hden in E. apply (proj1 (half_zero _)) in E.
    split; [intros _|reflexivity]. unfold n in E. nia.
  - apply Qeq_bool_neq in E. split; [discriminate|].
    intros Hlt. exfalso. apply E. rewrite Hden. apply (proj2 (half_zero _)).
    unfold n. nia.
Qed.

Lemma rand_index_nan_iff_witness :
  exists v,
    rand_index single_segment single_segment = Ok v /\
    (v = NonFinite <-> both_nonzero single_segment single_segment < 2).
Proof.
  apply (rand_index_nan_iff single_segment single_segment);
    [reflexivity | vm_compute; lia].
Defined.

(** X14.  A field with at least two non-zero positions has Rand index 1.0
    with itself. *)
Theorem rand_index_self_is_one (x : ndarray nat) :
  2 <= nonzero_positions x ->
  exists v, rand_index x x = Ok v /\ feq v (Finite 1).
Proof.
  intros H2.
  assert (Hne : size x <> 0).
  { unfold size, nonzero_positions in *. intros E.
    apply length_zero_iff_nil in E. rewrite E in H2. cbn in H2. lia. }
  unfold rand_index.
  rewrite contingency_table_table_of by auto. cbn [bind].
  rewrite rand_values_self.
  assert (HN : counted x = Z.of_nat (nonzero_positions x)).
  { rewrite <- both_nonzero_self, <- table_of_counted. symmetry.
    apply self_total. }
  set (S1 := squared_sizes x) in *. set (N := counted x) in *.
  replace (S1 - S1)%Z with 0%Z by lia. change (inject_Z 0) with 0%Q.
  unfold fdiv.
  match goal with |- context [Qeq_bool ?den 0] =>
    assert (Hden : (den == inject_Z (N * N - N) / 2)%Q)
      by (change 0%Q with (inject_Z 0); rewrite halves_sum;
          apply Qdiv_comp; [|reflexivity]; apply inject_Z_injective; lia);
    destruct (Qeq_bool den 0) eqn:E end.
  - apply Qeq_bool_iff in E. rewrite Hden in E. apply (proj1 (half_zero _)) in E. nia.
  - eexists. split; [reflexivity|]. apply Qeq_bool_neq in E. cbn [feq].
    match goal with |- (?num / ?den == 1)%Q =>
      assert (Hnum : (num == den)%Q) by (unfold Qdiv; ring) end.
    rewrite Hnum. unfold Qdiv. apply Qmult_inv_r. exact E.
Qed.

Lemma rand_index_self_is_one_witness :
  exists v, rand_index scenario_true scenario_true = Ok v /\
            feq v (Finite 1).
Proof.
  apply (rand_index_self_is_one scenario_true). vm_compute. lia.
Defined.



(** ** Signs of the Rand values *)

Section CellSums.

Local Open Scope Z_scope.

(** Any table of non-negative integer cells. *)
Variable cell : nat -> nat -> Z.
Variables nr nc : nat.
Hypothesis cell_nonneg : forall i j, 0 <= cell i j.

Let row (i : nat) : Z := zsum (map (fun j => cell i j) (seq 0 nc)).
Let col (j : nat) : Z := zsum (map (fun i => cell i j) (seq 0 nr)).
Let total : Z := zsum (map row (seq 0 nr)).




Lemma row_nonneg (i : nat) : 0 <= row i.
Proof. apply zsum_nonneg. auto. Qed.

Lemma col_nonneg (j : nat) : 0 <= col j.
Proof. apply zsum_nonneg. auto. Qed.

Lemma total_by_columns : total = zsum (map col (seq 0 nc)).
Proof. unfold total, row, col. apply zsum_exchange. Qed.







End CellSums.

Section RandSigns.




End RandSigns.





(** ** The adapted Rand error of a field with itself, and swapped fields *)

Section AdaptedRandFacts.

(** The value [compare_adapted_rand_error] returns, in cell counts. *)
Lemma adapted_rand_error_value (im_true im_test : ndarray nat) :
  shape im_true = shape im_test ->
  size im_true = size im_test -> size im_test <> 0 ->
  let n := Z.of_nat (size im_test) in
  let precision :=
    fdiv (fofZ (sum_p_ij im_true im_test - n))
         (fofZ (sum_a im_true im_test - n)) in
  let recall :=
    fdiv (fofZ (sum_p_ij im_true im_test - n))
         (fofZ (sum_b im_true im_test - n)) in
  compare_adapted_rand_error im_true im_test =
  Ok (fsub (Finite 1)
           (fdiv (fmul (fmul (Finite 2) precision) recall)
                 (fadd precision recall)),
      precision, recall).
Proof.
  intros Hshape Hsz Hne. cbv zeta.
  unfold compare_adapted_rand_error, _assert_compatible.
  destruct (list_eq_dec Nat.eq_dec (shape im_true) (shape im_test));
    [|contradiction].
  cbn [bind]. rewrite contingency_table_table_of by assumption.
  cbn [bind].
  rewrite table_of_axis0, table_of_axis1, !dot_self, table_of_sq_data.
  rewrite !map_map. reflexivity.
Qed.

Lemma inject_Z_nonzero (z : Z) : z <> 0%Z -> ~ (inject_Z z == 0)%Q.
Proof.
  intros Hz E. unfold Qeq, inject_Z in E. cbn in E. lia.
Qed.

(** The F-score part does not depend on the order of precision and
    recall. *)
Lemma are_comm (p r : npfloat) :
  fsame (fsub (Finite 1) (fdiv (fmul (fmul (Finite 2) p) r) (fadd p r)))
        (fsub (Finite 1) (fdiv (fmul (fmul (Finite 2) r) p) (fadd r p))).
Proof.
  destruct p as [p|], r as [r|]; cbn [fmul fadd flift2 fdiv fsub fsame];
    try exact I.
  pose proof (fdiv_same (2 * p * r) (p + r) (2 * r * p) (r + p)) as H.
  unfold fdiv in *.
  destruct (Qeq_bool (p + r) 0), (Qeq_bool (r + p) 0); cbn [fsub flift2 fsame] in *;
    try (apply H; ring).
  rewrite (H ltac:(ring) ltac:(ring)). reflexivity.
Qed.

Lemma fdiv_self (z : Z) :
  z <> 0%Z -> fdiv (fofZ z) (fofZ z) = Finite (inject_Z z / inject_Z z).
Proof.
  intros Hz. unfold fdiv, fofZ.
  destruct (Qeq_bool (inject_Z z) 0) eqn:E; [|reflexivity].
  apply Qeq_bool_iff in E. apply inject_Z_nonzero in E; [contradiction|exact Hz].
Qed.

Lemma are_of_ones (P : Q) :
  (P == 1)%Q ->
  exists e,
    fsub (Finite 1)
         (fdiv (fmul (fmul (Finite 2) (Finite P)) (Finite P))
               (fadd (Finite P) (Finite P))) = Finite e /\
    (e == 0)%Q.
Proof.
  intros HP. cbn [fmul fadd flift2]. unfold fdiv.
  destruct (Qeq_bool (P + P) 0) eqn:E.
  - apply Qeq_bool_iff in E. rewrite HP in E. discriminate E.
  - eexists. split; [reflexivity|]. rewrite HP. reflexivity.
Qed.

End AdaptedRandFacts.

(** X17.  A field compared with itself has adapted Rand precision 1.0,
    recall 1.0 and error 0.0, provided the sum of its squared segment sizes
    differs from its number of elements (otherwise all three are 0/0). *)
Theorem adapted_rand_error_self (x : ndarray nat) :
  size x <> 0 ->
  squared_sizes x <> Z.of_nat (size x) ->
  exists are precision recall,
    compare_adapted_rand_error x x = Ok (are, precision, recall) /\
    feq are (Finite 0) /\ feq precision (Finite 1) /\ feq recall (Finite 1).
Proof.
  intros Hne HS.
  rewrite adapted_rand_error_value by auto. cbv zeta.
  rewrite self_sum_p_ij, self_sum_a, self_sum_b.
  set (z := (squared_sizes x - Z.of_nat (size x))%Z).
  assert (Hz : z <> 0%Z) by (unfold z; lia).
  rewrite (fdiv_self z Hz).
  assert (H1 : (inject_Z z / inject_Z z == 1)%Q)
    by (unfold Qdiv; apply Qmult_inv_r, inject_Z_nonzero; exact Hz).
  destruct (are_of_ones _ H1) as (e & He & He0). rewrite He.
  do 3 eexists. split; [reflexivity|]. cbn [feq].
  split; [exact He0 | split; exact H1].
Qed.

Lemma adapted_rand_error_self_witness :
  exists are precision recall,
    compare_adapted_rand_error background_true background_true
    = Ok (are, precision, recall) /\
    feq are (Finite 0) /\ feq precision (Finite 1) /\ feq recall (Finite 1).
Proof.
  apply (adapted_rand_error_self background_true);
    [vm_compute; lia | vm_compute; discriminate].
Defined.

(** X18.  Swapping the two fields swaps precision and recall and keeps the
    error. *)
Theorem adapted_rand_error_swap (im1 im2 : ndarray nat) :
  wf im1 = true -> wf im2 = true -> shape im1 = shape im2 ->
  size im1 <> 0 ->
  exists are precision recall are',
    compare_adapted_rand_error im1 im2 = Ok (are, precision, recall) /\
    compare_adapted_rand_error im2 im1 = Ok (are', recall, precision) /\
    fsame are are'.
Proof.
  intros W1 W2 Hshape Hne.
  assert (Hsz : size im1 = size im2) by (apply shape_size; assumption).
  rewrite (adapted_rand_error_value im1 im2) by (auto; lia).
  rewrite (adapted_rand_error_value im2 im1) by (auto; lia).
  cbv zeta.
  rewrite (sum_p_ij_swap im2 im1), (sum_a_swap im2 im1).
  rewrite <- (sum_a_swap im1 im2), Hsz.
  do 4 eexists. split; [reflexivity|]. split; [reflexivity|].
  apply are_comm.
Qed.

Lemma adapted_rand_error_swap_witness :
  exists are precision recall are',
    compare_adapted_rand_error background_true background_test
    = Ok (are, precision, recall) /\
    compare_adapted_rand_error background_test background_true
    = Ok (are', recall, precision) /\
    fsame are are'.
Proof.
  apply (adapted_rand_error_swap background_true background_test);
    [reflexivity | reflexivity | reflexivity | vm_compute; lia].
Defined.

(** ** Values of the edit distance *)

Section EditDistanceFacts.

Lemma relabel_max (x : ndarray nat) :
  list_max (map (label_rank x) (ravel x)) = n_segments x.
Proof.
  apply Nat.le_antisymm.
  - apply list_max_le. apply Forall_forall. intros i Hi.
    apply in_map_iff in Hi. destruct Hi as (v & <- & _).
    apply label_rank_le.
  - destruct (n_segments x) as [|k] eqn:EK; [lia|].
    apply list_max_ge. apply ranks_of_field. right. lia.
Qed.

(** The relabelled field carries every label up to its largest one. *)
Lemma relabel_all_present (x : ndarray nat) (i : nat) :
  1 <= i <= list_max (map (label_rank x) (ravel x)) ->
  In i (map (label_rank x) (ravel x)).
Proof.
  rewrite relabel_max. intros H. apply ranks_of_field. right. exact H.
Qed.

(** What [compare_raw_edit_distance] returns on non-empty fields of the
    same shape. *)
Lemma edit_distance_value
  (im_true im_test : ndarray nat) (size_threshold : Q) :
  wf im_true = true -> wf im_test = true ->
  shape im_true = shape im_test -> size im_test <> 0 ->
  compare_raw_edit_distance im_true im_test size_threshold =
  Ok (sum_over_test_rows size_threshold
        (amap (label_rank im_true) im_true)
        (amap (label_rank im_test) im_test), 0%Z).
Proof.
  intros Wt Ws Hshape Hne.
  assert (Hsz : size im_true = size im_test) by (apply shape_size; assumption).
  destruct (relabel_from_one_ok im_test Hne)
    as (te & fw1 & inv1 & E1 & S1 & W1).
  destruct (relabel_from_one_ok im_true) as (tr & fw2 & inv2 & E2 & S2 & W2);
    [lia|].
  pose proof (relabel_ranks _ _ _ _ E1) as R1.
  pose proof (relabel_ranks _ _ _ _ E2) as R2.
  assert (Hsz' : size tr = size te) by (apply shape_size; congruence).
  assert (Hne' : size te <> 0).
  { rewrite (shape_size te im_test) by congruence. exact Hne. }
  unfold compare_raw_edit_distance, _assert_compatible.
  destruct (list_eq_dec Nat.eq_dec (shape im_true) (shape im_test));
    [|contradiction].
  cbn [bind]. rewrite E1, E2. cbn [bind fst].
  rewrite contingency_table_table_of by assumption. cbn [bind].
  rewrite thresholded_row_sums. rewrite <- R1, <- R2. reflexivity.
Qed.

Lemma joint_count_le_length (ps : list (nat * nat)) (i j : nat) :
  (joint_count ps i j <= Z.of_nat (length ps))%Z.
Proof.
  rewrite joint_count_positions.
  destruct ((i =? 0) || (j =? 0)); [lia|].
  pose proof (filter_length_le (fun p => (fst p =? i) && (snd p =? j)) ps).
  lia.
Qed.

End EditDistanceFacts.

(** X20.  With a threshold that no overlap exceeds (the default 1000 on
    fields of up to 1000 elements) every cell is zeroed and each test
    segment counts for -1: the number of false merges is minus the number of
    test segments. *)
Theorem edit_distance_large_threshold
  (im_true im_test : ndarray nat) (size_threshold : Q) :
  wf im_true = true -> wf im_test = true ->
  shape im_true = shape im_test -> size im_test <> 0 ->
  (inject_Z (Z.of_nat (size im_test)) <= size_threshold)%Q ->
  compare_raw_edit_distance im_true im_test size_threshold =
  Ok ((- Z.of_nat (n_segments im_test))%Z, 0%Z).
Proof.
  intros Wt Ws Hshape Hne Hthr.
  rewrite edit_distance_value by assumption. do 2 f_equal.
  unfold sum_over_test_rows.
  rewrite amap_ravel, relabel_max.
  rewrite (zsum_map_ext _ (fun _ => (-1)%Z)).
  - generalize (n_segments im_test) as k. intros k.
    generalize 1 as s. induction k as [|k IH]; intros s; [reflexivity|].
    cbn [seq map]. change (zsum (?a :: ?t)) with (a + zsum t)%Z.
    rewrite IH. lia.
  - intros i _. unfold true_segments_overlapped.
    rewrite (proj2 (length_zero_iff_nil _)); [reflexivity|].
    match goal with |- filter ?p ?l = [] =>
      destruct (filter p l) as [|j js] eqn:E; [reflexivity|];
      assert (Hj : In j (filter p l)) by (rewrite E; left; reflexivity) end.
    apply filter_In in Hj. destruct Hj as [_ Hov].
    unfold overlaps in Hov. apply andb_true_iff in Hov.
    destruct Hov as [Hov _]. apply negb_true_iff in Hov.
    assert (Hle : Qle_bool
                    (inject_Z (joint_count
                                 (label_pairs
                                    (amap (label_rank im_true) im_true)
                                    (amap (label_rank im_test) im_test)) i j))
                    size_threshold = true); [|congruence].
    apply Qle_bool_iff. eapply Qle_trans; [|exact Hthr].
    rewrite <- Zle_Qle.
    eapply Z.le_trans; [apply joint_count_le_length|].
    unfold label_pairs. rewrite length_combine, !amap_ravel, !length_map.
    unfold size. lia.
Qed.

Lemma edit_distance_large_threshold_witness :
  compare_raw_edit_distance scenario_true scenario_test 1000 =
  Ok ((-3)%Z, 0%Z).
Proof.
  apply (edit_distance_large_threshold scenario_true scenario_test 1000);
    [reflexivity | reflexivity | reflexivity | vm_compute; lia
    | vm_compute; discriminate].
Defined.

(** X21.  A field compared with itself needs no merge and no split, for
    every threshold below 1. *)
Theorem edit_distance_self (x : ndarray nat) (size_threshold : Q) :
  wf x = true -> size x <> 0 -> (size_threshold < 1)%Q ->
  compare_raw_edit_distance x x size_threshold = Ok (0%Z, 0%Z).
Proof.
  intros W Hne Hthr.
  rewrite edit_distance_value by auto. do 2 f_equal.
  set (r := amap (label_rank x) x).
  assert (Hr : ravel r = map (label_rank x) (ravel x)) by apply amap_ravel.
  unfold sum_over_test_rows. apply zsum_map_zero. intros i Hi.
  apply in_seq in Hi.
  assert (Hin : In i (ravel r)).
  { rewrite Hr. apply relabel_all_present. rewrite <- Hr. lia. }
  unfold true_segments_overlapped. rewrite <- zsum_count.
  rewrite (zsum_map_ext _ (fun j => if j =? i then 1%Z else 0%Z)).
  - rewrite (zsum_pick_in (fun _ => 1%Z)) by lia. reflexivity.
  - intros j _. rewrite self_joint. rewrite (Nat.eqb_sym j i).
    destruct (Nat.eqb_spec i j) as [<-|Hij].
    + unfold overlaps, label_count.
      replace (i =? 0) with false by (symmetry; apply Nat.eqb_neq; lia).
      apply (count_occ_In Nat.eq_dec) in Hin.
      set (c := count_occ Nat.eq_dec (ravel r) i) in *.
      replace (Z.of_nat c =? 0)%Z with false
        by (symmetry; apply Z.eqb_neq; lia).
      replace (Qle_bool (inject_Z (Z.of_nat c)) size_threshold) with false;
        [reflexivity|].
      symmetry. apply not_true_iff_false. intros Hle.
      apply Qle_bool_iff in Hle.
      assert (H1 : (1 <= inject_Z (Z.of_nat c))%Q).
      { change 1%Q with (inject_Z 1). rewrite <- Zle_Qle. lia. }
      apply (Qlt_irrefl 1). eapply Qle_lt_trans; [exact H1|].
      eapply Qle_lt_trans; [exact Hle | exact Hthr].
    + unfold overlaps. rewrite andb_false_r. reflexivity.
Qed.

Lemma edit_distance_self_witness :
  compare_raw_edit_distance scenario_test scenario_test 0 = Ok (0%Z, 0%Z).
Proof.
  apply (edit_distance_self scenario_test 0);
    [reflexivity | vm_compute; lia | reflexivity].
Defined.

(** The number of false splits is always 0 (lemma [false_splits_zero]):
    here on fields with one test segment over three true segments. *)
Lemma false_splits_zero_witness :
  compare_raw_edit_distance merged_true merged_test 0 = Ok (2%Z, 0%Z) /\
  0%Z = 0%Z.
Proof.
  assert (H : compare_raw_edit_distance merged_true merged_test 0
              = Ok (2%Z, 0%Z)) by (vm_compute; reflexivity).
  split; [exact H|].
  apply (false_splits_zero merged_true merged_test 0 2%Z 0%Z H).
Defined.

(** ** Edge cases of the threshold sweep *)

Section SweepEdges.

Variable label : ndarray bool -> ndarray nat * nat.
Variable float_index : list nat -> Z -> result (list nat).

Lemma increasing_constant_tail (l : list nat) (c : nat) :
  increasing l -> (forall v, In v l -> v = c) -> tl l = [].
Proof.
  destruct l as [|a [|b t]]; try reflexivity.
  cbn [increasing]. intros [Ha _] Hc.
  assert (a < b) by (apply Ha; left; reflexivity).
  assert (a = c) by (apply Hc; left; reflexivity).
  assert (b = c) by (apply Hc; right; left; reflexivity).
  lia.
Qed.

Lemma two_values_tail (l : list nat) (u v : nat) :
  u <> v -> In u l -> In v l -> tl l <> [].
Proof.
  destruct l as [|a [|b t]]; cbn [In tl]; intros Huv Hu Hv; try discriminate.
  - contradiction.
  - destruct Hu as [<-|[]], Hv as [<-|[]]. congruence.
Qed.

(** X22.  A constant test map has no threshold: the table has three empty
    rows (for an absent or non-negative [npoints]). *)
Theorem sweep_constant_map
  (im_true im_test : ndarray nat) (npoints : option Z) (c : nat) :
  shape im_true = shape im_test ->
  (forall v, In v (ravel im_test) -> v = c) ->
  match npoints with
  | Some k => (0 <= k)%Z
  | None => True
  end ->
  compare_rand_by_threshold label float_index im_true im_test npoints =
  Ok [[]; []; []].
Proof.
  intros Hshape Hc Hnp.
  unfold compare_rand_by_threshold, _assert_compatible.
  destruct (list_eq_dec Nat.eq_dec (shape im_true) (shape im_test));
    [|contradiction].
  cbn [bind].
  rewrite (increasing_constant_tail (unique (ravel im_test)) c).
  - cbn [length]. destruct npoints as [k|]; [|reflexivity].
    replace (2 * k <? Z.of_nat 0)%Z with false
      by (symmetry; apply Z.ltb_ge; change (Z.of_nat 0) with 0%Z; lia).
    reflexivity.
  - apply unique_increasing.
  - intros v Hv. apply Hc. apply unique_in. exact Hv.
Qed.

(** X23.  [npoints = 0] on a test map with at least two different values
    divides the number of thresholds by zero. *)
Theorem sweep_zero_points
  (im_true im_test : ndarray nat) (u v : nat) :
  shape im_true = shape im_test ->
  u <> v -> In u (ravel im_test) -> In v (ravel im_test) ->
  compare_rand_by_threshold label float_index im_true im_test (Some 0%Z) =
  Raise ZeroDivisionError.
Proof.
  intros Hshape Huv Hu Hv.
  unfold compare_rand_by_threshold, _assert_compatible.
  destruct (list_eq_dec Nat.eq_dec (shape im_true) (shape im_test));
    [|contradiction].
  cbn [bind].
  assert (Hts : tl (unique (ravel im_test)) <> []).
  { apply (two_values_tail _ u v Huv); apply unique_in; assumption. }
  destruct (tl (unique (ravel im_test))) as [|t ts]; [congruence|].
  reflexivity.
Qed.

End SweepEdges.

Lemma sweep_constant_map_witness :
  compare_rand_by_threshold one_component no_float_index
    (Arr1 [1; 2; 2]) (Arr1 [7; 7; 7]) (Some 5%Z) = Ok [[]; []; []].
Proof.
  apply (sweep_constant_map one_component no_float_index
           (Arr1 [1; 2; 2]) (Arr1 [7; 7; 7]) (Some 5%Z) 7);
    [reflexivity | | simpl; lia].
  simpl. intros v [H|[H|[H|[]]]]; symmetry; exact H.
Defined.

Lemma sweep_zero_points_witness :
  compare_rand_by_threshold one_component no_float_index
    (Arr1 [1; 2; 2]) (Arr1 [0; 3; 5]) (Some 0%Z) = Raise ZeroDivisionError.
Proof.
  apply (sweep_zero_points one_component no_float_index
           (Arr1 [1; 2; 2]) (Arr1 [0; 3; 5]) 0 3);
    [reflexivity | lia | simpl; auto | simpl; auto].
Defined.

(** ** The properties above on concrete fields *)

(** X1.  Every label is replaced by its rank among the distinct non-zero
    labels of the field; 0 has rank 0. *)
Theorem relabel_from_one_ranks (x r : ndarray nat) (fw inv : list nat) :
  relabel_from_one x = Ok (r, fw, inv) ->
  r = amap (label_rank x) x.
Proof. apply relabel_ranks. Qed.

Lemma relabel_from_one_ranks_witness :
  docstring_relabeled = amap (label_rank docstring_field) docstring_field.
Proof.
  apply (relabel_from_one_ranks docstring_field docstring_relabeled
           (scatter (repeat 0 100) [1; 5; 8; 42; 99] [1; 2; 3; 4; 5])
           [0; 1; 5; 8; 42; 99]).
  vm_compute. reflexivity.
Defined.

Lemma relabel_from_one_keeps_order_witness :
  exists f,
    docstring_relabeled = amap f docstring_field /\ f 0 = 0 /\
    forall u v, In u (ravel docstring_field) -> In v (ravel docstring_field) ->
                (u < v <-> f u < f v).
Proof.
  apply (relabel_from_one_keeps_order docstring_field docstring_relabeled
           (scatter (repeat 0 100) [1; 5; 8; 42; 99] [1; 2; 3; 4; 5])
           [0; 1; 5; 8; 42; 99]).
  vm_compute. reflexivity.
Defined.

(** X3.  The non-zero labels of the relabelled field are exactly [1..K],
    [K] the number of segments of the input, and 0 occurs exactly when the
    input has a 0. *)
Theorem relabel_from_one_dense (x r : ndarray nat) (fw inv : list nat) :
  relabel_from_one x = Ok (r, fw, inv) ->
  forall i, In i (ravel r) <->
            (i = 0 /\ In 0 (ravel x)) \/ (1 <= i <= n_segments x).
Proof. apply relabel_dense. Qed.

Lemma relabel_from_one_dense_witness :
  In 5 (ravel docstring_relabeled) <->
  (5 = 0 /\ In 0 (ravel docstring_field)) \/
  (1 <= 5 <= n_segments docstring_field).
Proof.
  apply (relabel_from_one_dense docstring_field docstring_relabeled
           (scatter (repeat 0 100) [1; 5; 8; 42; 99] [1; 2; 3; 4; 5])
           [0; 1; 5; 8; 42; 99]).
  vm_compute. reflexivity.
Defined.

Lemma relabel_from_one_idempotent_witness :
  exists fw' inv',
    relabel_from_one docstring_relabeled = Ok (docstring_relabeled, fw', inv').
Proof.
  apply (relabel_from_one_idempotent docstring_field docstring_relabeled
           (scatter (repeat 0 100) [1; 5; 8; 42; 99] [1; 2; 3; 4; 5])
           [0; 1; 5; 8; 42; 99]).
  vm_compute. reflexivity.
Defined.

Lemma relabel_from_one_empty_witness :
  relabel_from_one (Arr2 []) = Raise ValueError.
Proof.
  apply (relabel_from_one_empty (Arr2 [])). reflexivity.
Defined.

Lemma relabel_round_trip_witness :
  exists relabeled forward_map inverse_map,
    relabel_from_one docstring_field
    = Ok (relabeled, forward_map, inverse_map) /\
    take forward_map docstring_field = Ok relabeled /\
    take inverse_map relabeled = Ok docstring_field.
Proof.
  apply (relabel_round_trip docstring_field);
    [vm_compute; lia | right; vm_compute; lia].
Defined.


(** ** Signs of the conditional entropies *)

Section EntropySigns.

Local Open Scope R_scope.

Lemma real_in_weaken (P Q : R -> Prop) (v : vfloat) :
  (forall a, P a -> Q a) -> real_in P v -> real_in Q v.
Proof. destruct v; cbn; auto. Qed.

(** The sum of non-negative reals is a real that bounds each of them. *)
Lemma vsum_bound (l : list vfloat) :
  Forall (real_in nonneg) l ->
  exists s, vsum l = Real s /\ 0 <= s /\
            Forall (real_in (fun a => 0 <= a <= s)) l.
Proof.
  unfold nonneg. induction 1 as [|v l Hv Hl IH].
  - exists 0. cbn. repeat split; [lra | constructor].
  - destruct IH as (s & Es & Hs & Hall). destruct v as [a|]; [|contradiction].
    cbn in Hv. exists (a + s). cbn [vsum fold_right].
    fold (vsum l). rewrite Es. cbn [vadd lift2].
    split; [reflexivity|]. split; [lra|]. constructor; [cbn; lra|].
    eapply Forall_impl; [|exact Hall]. intros v.
    apply real_in_weaken. intros b Hb. lra.
Qed.

Lemma vsum_nonneg (l : list vfloat) :
  Forall (real_in nonneg) l -> real_in nonneg (vsum l).
Proof.
  intros H. destruct (vsum_bound l H) as (s & Es & Hs & _).
  rewrite Es. exact Hs.
Qed.

Lemma vsum_nonpos (l : list vfloat) :
  Forall (real_in nonpos) l -> real_in nonpos (vsum l).
Proof.
  unfold nonpos. induction 1 as [|v l Hv Hl IH]; [cbn; lra|].
  destruct v as [a|]; [|contradiction]. cbn in Hv.
  cbn [vsum fold_right]. fold (vsum l).
  destruct (vsum l) as [s|]; [|contradiction]. cbn in *. lra.
Qed.

(** [x log2 x] of a probability is not positive. *)
Lemma xlogx_entry (z : vfloat) :
  real_in unit_range z ->
  real_in nonpos (if vnonzero z then vmul z (vlog2 z) else z).
Proof.
  unfold unit_range, nonpos. destruct z as [q|]; [|contradiction].
  cbn [real_in vnonzero]. intros [H0 H1].
  destruct (Req_dec_T q 0) as [->|Hq]; [cbn; lra|].
  rewrite vlog2_real by lra. cbn [vmul lift2 real_in].
  assert (Hln : ln q <= 0).
  { rewrite <- ln_1. destruct (Req_dec_T q 1) as [->|Hq1]; [lra|].
    left. apply ln_increasing; lra. }
  assert (H2 : 0 < ln 2) by (rewrite <- ln_1; apply ln_increasing; lra).
  assert (Hd : ln q / ln 2 <= 0).
  { unfold Rdiv. rewrite <- (Rmult_0_l (/ ln 2)).
    apply Rmult_le_compat_r; [|exact Hln].
    left. apply Rinv_0_lt_compat. exact H2. }
  rewrite <- (Rmult_0_r q). apply Rmult_le_compat_l; lra.
Qed.

Lemma in_combine_seq {A : Type} (l : list A) (s i : nat) (v d : A) :
  In (i, v) (combine (seq s (length l)) l) ->
  (s <= i < s + length l)%nat /\ nth (i - s) l d = v.
Proof.
  revert s. induction l as [|a l IH]; intros s; cbn [length seq combine In];
    [contradiction|].
  intros [H|H].
  - injection H as <- <-. rewrite Nat.sub_diag. split; [lia|reflexivity].
  - apply IH in H. destruct H as [Hr Hn]. split; [lia|].
    replace (i - s)%nat with (S (i - S s)) by lia. exact Hn.
Qed.

Lemma nonzero_in (l : list vfloat) (i : nat) (d : vfloat) :
  In i (nonzero l) ->
  (i < length l)%nat /\ vnonzero (nth i l d) = true.
Proof.
  unfold nonzero. intros H. apply in_map_iff in H.
  destruct H as ([i' v] & E & H). cbn in E. subst i'.
  apply filter_In in H. destruct H as [H Hv]. cbn in Hv.
  apply (in_combine_seq l 0 i v d) in H. destruct H as [Hr Hn].
  rewrite Nat.sub_0_r in Hn. rewrite Hn. split; [lia | exact Hv].
Qed.

Lemma scatter_Forall {A : Type} (P : A -> Prop) (idx : list nat)
  (a vals : list A) :
  Forall P a -> Forall P vals -> Forall P (scatter a idx vals).
Proof.
  revert a vals. induction idx as [|i idx IH]; intros a [|x vals] Ha Hv;
    cbn [scatter]; try assumption.
  inversion Hv; subst. apply IH; [|assumption].
  clear - Ha H1. revert i. induction Ha as [|y a Hy Ha IHa]; intros [|i];
    cbn [set_nth]; constructor; auto.
Qed.

Lemma combine_map_same {A B C : Type} (f : A -> B) (g : A -> C) (l : list A) :
  combine (map f l) (map g l) = map (fun x => (f x, g x)) l.
Proof.
  induction l as [|x l IH]; [reflexivity|]. cbn. rewrite IH. reflexivity.
Qed.

(** Entropy terms: minus a probability times a non-positive number. *)
Lemma entropy_terms_nonneg (ps ls : list vfloat) :
  Forall (real_in nonneg) ps -> Forall (real_in nonpos) ls ->
  Forall (real_in nonneg)
         (map (fun p => vneg (vmul (fst p) (snd p))) (combine ps ls)).
Proof.
  intros Hp. revert ls. induction Hp as [|p ps Hp Hps IH];
    intros ls Hl; [constructor|].
  destruct Hl as [|l ls Hl Hls]; [constructor|].
  cbn [combine map fst snd]. constructor; [|apply IH; exact Hls].
  destruct p as [a|], l as [b|]; try contradiction.
  unfold nonneg, nonpos in *. cbn in *.
  assert (a * b <= 0); [|lra].
  rewrite <- (Rmult_0_r a). apply Rmult_le_compat_l; lra.
Qed.

Lemma nth_Forall {A : Type} (P : A -> Prop) (l : list A) (i : nat) (d : A) :
  Forall P l -> P d -> P (nth i l d).
Proof.
  intros Hl Hd. destruct (Nat.lt_ge_cases i (length l)) as [H|H].
  - rewrite Forall_forall in Hl. apply Hl, nth_In, H.
  - rewrite nth_overflow by exact H. exact Hd.
Qed.

End EntropySigns.

Section ConditionalTables.

Local Open Scope R_scope.

Variable pxy : list (list vfloat).
Variable c : nat.
Hypothesis pxy_nonneg : Forall (Forall (real_in nonneg)) pxy.
Hypothesis pxy_rows : Forall (fun r => length r = c) pxy.

Let px := map vsum pxy.
Let py := colsums c pxy.
Let nzx := nonzero px.
Let nzy := nonzero py.
Let nzpxy := map (fun i => vtake (nth i pxy []) nzy) nzx.

Lemma px_nonneg : Forall (real_in nonneg) px.
Proof.
  unfold px. apply Forall_map. eapply Forall_impl; [|exact pxy_nonneg].
  intros r. apply vsum_nonneg.
Qed.

Lemma column_nonneg (j : nat) :
  Forall (real_in nonneg) (map (fun r => nth j r (Real 0)) pxy).
Proof.
  apply Forall_map. eapply Forall_impl; [|exact pxy_nonneg].
  intros r Hr. apply nth_Forall; [exact Hr|]. unfold nonneg. cbn. lra.
Qed.

Lemma py_nonneg : Forall (real_in nonneg) py.
Proof.
  unfold py, colsums. apply Forall_map. apply Forall_forall.
  intros j _. apply vsum_nonneg, column_nonneg.
Qed.

Lemma py_length : length py = c.
Proof. unfold py, colsums. rewrite length_map, length_seq. reflexivity. Qed.

(** A row picked by [nzx] exists and has a positive sum that bounds its
    entries. *)
Lemma picked_row (i : nat) :
  In i nzx ->
  exists s, nth i px NaN = Real s /\ 0 < s /\
            length (nth i pxy []) = c /\
            Forall (real_in (fun a => 0 <= a <= s)) (nth i pxy []).
Proof.
  intros Hi. apply (nonzero_in px i NaN) in Hi. destruct Hi as [Hlt Hnz].
  unfold px in Hlt. rewrite length_map in Hlt.
  assert (Hin : In (nth i pxy []) pxy) by (apply nth_In; exact Hlt).
  assert (E : nth i px NaN = vsum (nth i pxy [])).
  { unfold px. rewrite (nth_indep _ NaN (vsum [])) by (rewrite length_map; exact Hlt).
    apply map_nth. }
  rewrite E in *.
  destruct (vsum_bound (nth i pxy [])) as (s & Es & Hs & Hall).
  { rewrite Forall_forall in pxy_nonneg. apply pxy_nonneg, Hin. }
  exists s. rewrite Es in *. split; [reflexivity|].
  cbn in Hnz. destruct (Req_dec_T s 0); [discriminate|].
  split; [lra|]. split; [|exact Hall].
  rewrite Forall_forall in pxy_rows. apply pxy_rows, Hin.
Qed.

(** A column picked by [nzy] exists and has a positive sum that bounds its
    entries. *)
Lemma picked_column (j : nat) :
  In j nzy ->
  exists t, nth j py NaN = Real t /\ 0 < t /\ (j < c)%nat /\
            Forall (real_in (fun a => 0 <= a <= t))
                   (map (fun r => nth j r (Real 0)) pxy).
Proof.
  intros Hj. apply (nonzero_in py j NaN) in Hj. destruct Hj as [Hlt Hnz].
  rewrite py_length in Hlt.
  assert (E : nth j py NaN = vsum (map (fun r => nth j r (Real 0)) pxy)).
  { unfold py, colsums.
    rewrite (nth_indep _ NaN
               ((fun j => vsum (map (fun r => nth j r (Real 0)) pxy)) 0%nat))
      by (rewrite length_map, length_seq; exact Hlt).
    rewrite (map_nth (fun j => vsum (map (fun r => nth j r (Real 0)) pxy))).
    rewrite seq_nth by exact Hlt. reflexivity. }
  rewrite E in *.
  destruct (vsum_bound _ (column_nonneg j)) as (t & Et & Ht & Hall).
  exists t. rewrite Et in *. split; [reflexivity|].
  cbn in Hnz. destruct (Req_dec_T t 0); [discriminate|].
  split; [lra|]. split; [exact Hlt | exact Hall].
Qed.

Lemma ratio_unit (a s : R) :
  0 <= a <= s -> 0 < s -> real_in unit_range (vdiv (Real a) (Real s)).
Proof.
  intros Ha Hs. cbn [vdiv]. destruct (Req_dec_T s 0); [lra|].
  unfold unit_range. cbn. split.
  - apply Rmult_le_pos; [lra|]. left. apply Rinv_0_lt_compat, Hs.
  - apply (Rmult_le_reg_r s); [exact Hs|]. unfold Rdiv.
    rewrite Rmult_assoc, Rinv_l by lra. lra.
Qed.

Lemma divide_rows_unit :
  Forall (Forall (real_in unit_range)) (divide_rows nzpxy (vtake px nzx)).
Proof.
  unfold divide_rows, nzpxy, vtake at 2.
  rewrite combine_map_same, map_map. cbn [fst snd].
  apply Forall_map, Forall_forall. intros i Hi.
  destruct (picked_row i Hi) as (s & Es & Hs & Hlen & Hall).
  rewrite Es. unfold vtake. rewrite map_map.
  apply Forall_map, Forall_forall. intros j Hj.
  destruct (picked_column j Hj) as (_ & _ & _ & Hjc & _).
  assert (Hin : In (nth j (nth i pxy []) NaN) (nth i pxy []))
    by (apply nth_In; rewrite Hlen; exact Hjc).
  rewrite Forall_forall in Hall. apply Hall in Hin.
  destruct (nth j (nth i pxy []) NaN) as [a|]; [|contradiction].
  apply ratio_unit; assumption.
Qed.

Lemma divide_columns_unit :
  Forall (Forall (real_in unit_range)) (divide_columns nzpxy (vtake py nzy)).
Proof.
  unfold divide_columns, nzpxy. rewrite map_map.
  apply Forall_map, Forall_forall. intros i Hi.
  destruct (picked_row i Hi) as (_ & _ & _ & Hlen & _).
  apply (nonzero_in px i NaN) in Hi. destruct Hi as [Hlt _].
  unfold px in Hlt. rewrite length_map in Hlt.
  unfold vtake. rewrite combine_map_same, map_map. cbn [fst snd].
  apply Forall_map, Forall_forall. intros j Hj.
  destruct (picked_column j Hj) as (t & Et & Ht & Hjc & Hall).
  rewrite Et.
  assert (Hin : In (nth j (nth i pxy []) (Real 0))
                   (map (fun r => nth j r (Real 0)) pxy)).
  { apply (in_map (fun r => nth j r (Real 0))). apply nth_In. exact Hlt. }
  rewrite Forall_forall in Hall. apply Hall in Hin.
  rewrite (nth_indep _ NaN (Real 0)) by (rewrite Hlen; exact Hjc).
  destruct (nth j (nth i pxy []) (Real 0)) as [a|]; [|contradiction].
  apply ratio_unit; assumption.
Qed.

Lemma xlogx_nonpos (m : list (list vfloat)) :
  Forall (Forall (real_in unit_range)) m ->
  Forall (Forall (real_in nonpos)) (xlogx m).
Proof.
  intros H. unfold xlogx. apply Forall_map.
  eapply Forall_impl; [|exact H]. intros r Hr. apply Forall_map.
  eapply Forall_impl; [|exact Hr]. intros z. apply xlogx_entry.
Qed.

Lemma zeros_nonpos (n : nat) : Forall (real_in nonpos) (repeat (Real 0) n).
Proof.
  apply Forall_forall. intros v Hv. apply repeat_spec in Hv. subst v.
  unfold nonpos. cbn. lra.
Qed.

Lemma lpygx_nonpos :
  Forall (real_in nonpos)
    (scatter (repeat (Real 0) (length px)) nzx
             (map vsum (xlogx (divide_rows nzpxy (vtake px nzx))))).
Proof.
  apply scatter_Forall; [apply zeros_nonpos|].
  apply Forall_map. eapply Forall_impl; [|apply xlogx_nonpos, divide_rows_unit].
  intros r. apply vsum_nonpos.
Qed.

Lemma lpxgy_nonpos :
  Forall (real_in nonpos)
    (scatter (repeat (Real 0) (length py)) nzy
             (colsums (length nzy)
                      (xlogx (divide_columns nzpxy (vtake py nzy))))).
Proof.
  apply scatter_Forall; [apply zeros_nonpos|].
  unfold colsums. apply Forall_map, Forall_forall. intros k _.
  apply vsum_nonpos, Forall_map.
  eapply Forall_impl; [|apply xlogx_nonpos, divide_columns_unit].
  intros r Hr. apply nth_Forall; [exact Hr|]. unfold nonpos. cbn. lra.
Qed.

Lemma hygx_sum_nonneg :
  real_in nonneg
    (vsum (map (fun p => vneg (vmul (fst p) (snd p)))
               (combine px
                  (scatter (repeat (Real 0) (length px)) nzx
                     (map vsum (xlogx (divide_rows nzpxy (vtake px nzx)))))))).
Proof.
  apply vsum_nonneg, entropy_terms_nonneg; [apply px_nonneg | apply lpygx_nonpos].
Qed.

Lemma hxgy_sum_nonneg :
  real_in nonneg
    (vsum (map (fun p => vneg (vmul (fst p) (snd p)))
               (combine py
                  (scatter (repeat (Real 0) (length py)) nzy
                     (colsums (length nzy)
                        (xlogx (divide_columns nzpxy (vtake py nzy)))))))).
Proof.
  apply vsum_nonneg, entropy_terms_nonneg; [apply py_nonneg | apply lpxgy_nonpos].
Qed.

End ConditionalTables.

Section SplitVISigns.

Local Open Scope R_scope.

Lemma normalized_nonneg (m : list (list nat)) (t : R) :
  0 < t ->
  Forall (Forall (real_in nonneg))
         (map (map (fun x => vdiv (Real (INR x)) (Real t))) m).
Proof.
  intros Ht. apply Forall_map, Forall_forall. intros r _.
  apply Forall_map, Forall_forall. intros x _.
  cbn [vdiv]. destruct (Req_dec_T t 0); [lra|]. unfold nonneg. cbn.
  apply Rmult_le_pos; [apply pos_INR|]. left. apply Rinv_0_lt_compat, Ht.
Qed.

Lemma normalized_rows {A B : Type} (f : A -> B) (m : list (list A)) :
  wf (Arr2 m) = true ->
  Forall (fun r => length r = ncols_of (map (map f) m)) (map (map f) m).
Proof.
  intros H. cbn [wf] in H. rewrite forallb_forall in H.
  assert (E : ncols_of (map (map f) m) = ncols_of m).
  { destruct m as [|r m]; [reflexivity|]. cbn. apply length_map. }
  rewrite E. apply Forall_map, Forall_forall. intros r Hr.
  rewrite length_map. apply Nat.eqb_eq, H, Hr.
Qed.

(** Both conditional entropies of a table with a positive total are
    non-negative reals. *)
Lemma split_vi_real (m : list (list nat)) (im2 : ndarray nat) :
  wf (Arr2 m) = true -> (0 < list_sum (concat m))%nat ->
  exists a b, compare_split_vi (Arr2 m) im2 = Ok (Real a, Real b) /\
              0 <= a /\ 0 <= b.
Proof.
  intros Hwf Htot.
  assert (Ht : 0 < INR (list_sum (concat m))) by (apply lt_0_INR, Htot).
  pose proof (normalized_nonneg m _ Ht) as Hnn.
  pose proof (normalized_rows
                (fun x => vdiv (Real (INR x)) (Real (INR (list_sum (concat m)))))
                m Hwf) as Hrows.
  pose proof (hygx_sum_nonneg _ _ Hnn Hrows) as Hy.
  pose proof (hxgy_sum_nonneg _ _ Hnn Hrows) as Hx.
  unfold compare_split_vi, vi_tables.
  cbn [ravel amap asum_axis1 asum_axis0 submatrix bind vi_hygx vi_hxgy].
  match goal with
  | |- exists a b, Ok (?u, ?v) = _ /\ _ => destruct u as [a|]; [|contradiction];
                                          destruct v as [b|]; [|contradiction]
  end.
  exists a, b. repeat split; assumption.
Qed.

(** A float sum that starts with [nan] is [nan]. *)
Lemma entropy_sum_nan (ps ls : list vfloat) :
  length ls = length (NaN :: ps) ->
  vsum (map (fun p => vneg (vmul (fst p) (snd p))) (combine (NaN :: ps) ls))
  = NaN.
Proof.
  destruct ls as [|l ls]; [discriminate|]. intros _. reflexivity.
Qed.

End SplitVISigns.

(** X24.  On a two-dimensional table of counts with a positive total,
    [compare_split_vi] returns two real numbers (no [nan]), and both are
    non-negative. *)
Theorem split_vi_nonneg (m : list (list nat)) (im2 : ndarray nat) :
  wf (Arr2 m) = true -> 0 < list_sum (concat m) ->
  exists a b, compare_split_vi (Arr2 m) im2 = Ok (Real a, Real b) /\
              (0 <= a)%R /\ (0 <= b)%R.
Proof. apply split_vi_real. Qed.

Lemma split_vi_nonneg_witness :
  exists a b, compare_split_vi (Arr2 [[1; 1]; [1; 1]]) (Arr1 [])
              = Ok (Real a, Real b) /\ (0 <= a)%R /\ (0 <= b)%R.
Proof.
  apply (split_vi_nonneg [[1; 1]; [1; 1]] (Arr1 [])); [reflexivity|].
  cbn. lia.
Defined.

(** X25.  With non-negative weights, [compare_vi] of a two-dimensional
    table of counts with a positive total is a non-negative real number. *)
Theorem vi_nonneg (m : list (list nat)) (im2 : ndarray nat) (w1 w2 : R) :
  wf (Arr2 m) = true -> 0 < list_sum (concat m) ->
  (0 <= w1)%R -> (0 <= w2)%R ->
  exists v, compare_vi (Arr2 m) im2 (Real w1, Real w2) = Ok (Real v) /\
            (0 <= v)%R.
Proof.
  intros Hwf Htot H1 H2.
  destruct (split_vi_real m im2 Hwf Htot) as (a & b & E & Ha & Hb).
  unfold compare_vi. rewrite E. cbn [bind dot2 fst snd vmul vadd lift2].
  eexists. split; [reflexivity|].
  apply Rplus_le_le_0_compat; apply Rmult_le_pos; assumption.
Qed.

Lemma vi_nonneg_witness :
  exists v, compare_vi (Arr2 [[1; 1]; [1; 1]]) (Arr1 []) (Real 1, Real 1)
            = Ok (Real v) /\ (0 <= v)%R.
Proof.
  apply (vi_nonneg [[1; 1]; [1; 1]] (Arr1 []) 1 1); [reflexivity | cbn; lia | |];
    lra.
Defined.

(** X26.  A two-dimensional table that holds only zeros (and has at least
    one row and one column) makes every probability [0/0]: both components of
    [compare_split_vi] are [nan], no error is raised. *)
Theorem split_vi_all_zero (m : list (list nat)) (im2 : ndarray nat) :
  m <> [] -> ncols_of m <> 0 -> list_sum (concat m) = 0 ->
  compare_split_vi (Arr2 m) im2 = Ok (NaN, NaN).
Proof.
  intros Hm Hc Hz. destruct m as [|[|x r] m]; try contradiction.
  unfold compare_split_vi, vi_tables.
  cbn [ravel amap asum_axis1 asum_axis0 submatrix bind vi_hygx vi_hxgy].
  rewrite Hz. cbn [INR map ncols_of length].
  assert (E0 : vdiv (Real (INR x)) (Real 0) = NaN).
  { cbn [vdiv]. destruct (Req_dec_T 0 0); [reflexivity | contradiction]. }
  rewrite E0. cbn [vsum fold_right vadd lift2 colsums seq map nth].
  f_equal. f_equal.
  - apply entropy_sum_nan. rewrite scatter_length, repeat_length. reflexivity.
  - apply entropy_sum_nan. rewrite scatter_length, repeat_length. reflexivity.
Qed.

Lemma split_vi_all_zero_witness :
  compare_split_vi (Arr2 [[0; 0]; [0; 0]]) (Arr1 [1]) = Ok (NaN, NaN).
Proof.
  apply (split_vi_all_zero [[0; 0]; [0; 0]] (Arr1 [1]));
    [discriminate | discriminate | reflexivity].
Defined.
